(** * Live Series Renderer Core of bklit-ui: a shallow embedding

    The numeric helpers of the live line chart are embedded as Rocq
    functions, one per source function and under the source's names:

    - [computeTargetRange], [nextAnimFrame], [interpolateAtTime], the
      [contextData] memo and the series that [handleMouseMove] builds for
      the crosshair (packages/ui/src/charts/live-line-chart.tsx);
    - [pickNiceInterval], the hysteresis tick-interval picker of the
      animated Y axis;
    - [niceGridTicks] (packages/ui/src/charts/live-y-axis.tsx);
    - [detectMomentum], the momentum classifier of the live line.

    Number model.  The file has two layers.

    In the first layer a JavaScript number is an exact rational: finite
    values are elements of [Q] and the arithmetic on them is exact.
    Where the source itself brings in the special values, as the
    [Infinity] sentinels of its min/max loops or a division by a zero tick
    count, the computation is carried out in [num], which adds [NaN],
    [-Infinity] and [+Infinity] to [Q] with the IEEE 754 rules for them.
    This layer serves the properties that do not hang on a rounding:
    branches taken, clamps, orders, structure of the results.

    In the second layer, [B64] and [Rounded], every arithmetic operation
    rounds its result to the nearest binary64 number, as the source does.
    The properties whose truth depends on the rounding (containment of a
    range, the exact spacing test of the interval picker, the bounds and
    the end of the tick loop) are stated and proved on this layer, and the
    inputs on which the exact statement fails are evaluated there.  The
    exponent of a binary64 number is not bounded in [B64]: overflow and
    the subnormal numbers are left out.

    Results computed in [Q] are compared with [==], the equality of
    fractions.  Array indices and lengths are natural numbers, and a
    reading of [Date.now()] is an integer number of milliseconds.

    Loops.  The two binary searches run on a fuel that is computed from
    their bounds and always suffices.  The loops whose exit depends on the
    data ([shrink_loop], [tick_loop]) take their fuel as an argument and
    return [None] when it runs out; the theorems about them show that
    enough fuel gives the result, or, for the tick loop in binary64, say
    when it does and show an input on which no fuel is enough.

    The first part of the file holds the definitions, the second part the
    properties, grouped by source function. *)

From Stdlib Require Import QArith Qround Qpower Qabs Lqa ZArith Lia List Bool
  Sorted.
From stdpp Require Import base option list sorting.

Open Scope Q_scope.

(** ** Comparisons on finite numbers *)

(** [x < y] as a boolean; [x <= y] and [x === y] are [Qle_bool] and
    [Qeq_bool]. *)
Definition Qltb (x y : Q) : bool := negb (Qle_bool y x).

(** Sign of a finite number: [Lt] negative, [Eq] zero, [Gt] positive. *)
Definition Qsign (q : Q) : comparison := q ?= 0.

(** ** JavaScript numbers with the special values *)

Module JsNum.

Inductive num : Type :=
| NaN
| NInf
| Fin (q : Q)
| PInf.

(** Unary minus. *)
Definition neg (a : num) : num :=
  match a with
  | NaN => NaN
  | NInf => PInf
  | Fin q => Fin (- q)
  | PInf => NInf
  end.

(** [a + b]: opposite infinities cancel to [NaN]. *)
Definition add (a b : num) : num :=
  match a, b with
  | NaN, _ | _, NaN => NaN
  | PInf, NInf | NInf, PInf => NaN
  | PInf, _ | _, PInf => PInf
  | NInf, _ | _, NInf => NInf
  | Fin x, Fin y => Fin (x + y)
  end.

Definition sub (a b : num) : num := add a (neg b).

(** An infinity of the given sign; a zero sign gives [NaN]. *)
Definition inf_of (s : comparison) : num :=
  match s with
  | Lt => NInf
  | Eq => NaN
  | Gt => PInf
  end.

Definition flip (s : comparison) : comparison := CompOpp s.

(** [a * b]: infinity times zero is [NaN]. *)
Definition mul (a b : num) : num :=
  match a, b with
  | NaN, _ | _, NaN => NaN
  | PInf, PInf | NInf, NInf => PInf
  | PInf, NInf | NInf, PInf => NInf
  | PInf, Fin y | Fin y, PInf => inf_of (Qsign y)
  | NInf, Fin y | Fin y, NInf => inf_of (flip (Qsign y))
  | Fin x, Fin y => Fin (x * y)
  end.

(** [a / b].  A zero divisor is taken to be [+0]: a finite non-zero
    number over zero is the infinity of its sign, [0 / 0] is [NaN]. *)
Definition div (a b : num) : num :=
  match a, b with
  | NaN, _ | _, NaN => NaN
  | (PInf | NInf), (PInf | NInf) => NaN
  | PInf, Fin y => match Qsign y with Lt => NInf | _ => PInf end
  | NInf, Fin y => match Qsign y with Lt => PInf | _ => NInf end
  | Fin _, (PInf | NInf) => Fin 0
  | Fin x, Fin y =>
      if Qeq_bool y 0 then inf_of (Qsign x) else Fin (x / y)
  end.

(** [a < b]; every comparison with [NaN] is false. *)
Definition lt (a b : num) : bool :=
  match a, b with
  | NaN, _ | _, NaN => false
  | _, NInf => false
  | NInf, _ => true
  | PInf, _ => false
  | Fin _, PInf => true
  | Fin x, Fin y => Qltb x y
  end.

(** [a <= b]. *)
Definition le (a b : num) : bool :=
  match a, b with
  | NaN, _ | _, NaN => false
  | NInf, _ => true
  | _, PInf => true
  | _, NInf => false
  | PInf, _ => false
  | Fin x, Fin y => Qle_bool x y
  end.

Definition gt (a b : num) : bool := lt b a.
Definition ge (a b : num) : bool := le b a.

(** [a === b] on numbers. *)
Definition eqb (a b : num) : bool :=
  match a, b with
  | NInf, NInf | PInf, PInf => true
  | Fin x, Fin y => Qeq_bool x y
  | _, _ => false
  end.

(** ToBoolean: [0] and [NaN] are falsy. *)
Definition truthy (a : num) : bool :=
  match a with
  | NaN => false
  | Fin q => negb (Qeq_bool q 0)
  | _ => true
  end.

(** [a || b] on numbers. *)
Definition or_else (a b : num) : num := if truthy a then a else b.

(** [Math.ceil]. *)
Definition ceil (a : num) : num :=
  match a with
  | Fin q => Fin (inject_Z (Qceiling q))
  | _ => a
  end.

End JsNum.

Import JsNum.

(** ** Powers of ten around a finite positive number *)

(** Searches downwards from [k] for the first exponent whose power of ten
    is at most [q]. *)
Fixpoint floor_log10_from (fuel : nat) (k : Z) (q : Q) : Z :=
  match fuel with
  | O => k
  | S fuel' =>
      if Qle_bool (10 ^ k) q then k else floor_log10_from fuel' (k - 1) q
  end.

(** [Math.floor(Math.log10(q))] for a finite [q > 0], computed exactly:
    the integer [k] with [10^k <= q < 10^(k+1)].  The search runs between
    the bounds [q < 2^(log2 n + 1)] and [2^-(log2 d + 1) < q] read off the
    numerator [n] and the denominator [d]. *)
Definition floor_log10 (q : Q) : Z :=
  let hi := (Z.log2 (Qnum q) + 1)%Z in
  let lo := (- (Z.log2 (Zpos (Qden q)) + 1))%Z in
  floor_log10_from (Z.to_nat (hi - lo)) hi q.

(** [Math.ceil(Math.log10(q))] for a finite [q > 0]: the integer [k] with
    [10^(k-1) < q <= 10^k]. *)
Definition ceil_log10 (q : Q) : Z :=
  let k := floor_log10 q in
  if Qeq_bool (10 ^ k) q then k else (k + 1)%Z.

(** [10 ** Math.floor(Math.log10(a))] on any number: [log10] of a negative
    number is [NaN], of [0] it is [-Infinity] (and [10 ** -Infinity] is
    [0]), of [+Infinity] it is [+Infinity]. *)
Definition pow10_floor_log10 (a : num) : num :=
  match a with
  | NaN | NInf => NaN
  | PInf => PInf
  | Fin q =>
      match Qsign q with
      | Lt => NaN
      | Eq => Fin 0
      | Gt => Fin (10 ^ floor_log10 q)
      end
  end.

(** ** live-line-chart.tsx *)

(** [interface LiveLinePoint]: one sample of the stream, [time] in unix
    seconds. *)
Record LiveLinePoint : Type := mkPoint { time : Q; value : Q }.

(** The invariant of a series: sorted by [time], ascending, ties allowed. *)
Definition ascending (points : list LiveLinePoint) : Prop :=
  Sorted (fun p q => time p <= time q) points.

(** The object type [{ yMin: number; yMax: number }] of a target range,
    over the finite numbers or over [num]. *)
Module TargetRange.
Record t (N : Type) : Type := mk { yMin : N; yMax : N }.
Arguments mk {N} _ _.
Arguments yMin {N} _.
Arguments yMax {N} _.
End TargetRange.

(** [interface AnimFrame]; [now] is a value of [Date.now()], an integer
    number of milliseconds. *)
Record AnimFrame : Type :=
  mkFrame { now : Z; yMin : Q; yMax : Q; displayValue : Q }.

(** [if (v < min) { min = v; } if (v > max) { max = v; }] on the pair
    [(min, max)]: the body of the min/max loops of [computeTargetRange]
    and of [detectMomentum]. *)
Definition minmax_step (acc : num * num) (v : Q) : num * num :=
  let '(min, max) := acc in
  let min := if lt (Fin v) min then Fin v else min in
  let max := if gt (Fin v) max then Fin v else max in
  (min, max).

(** One pass of [for (const d of data)] in [computeTargetRange]. *)
Definition range_step (acc : num * num) (d : LiveLinePoint) : num * num :=
  minmax_step acc (value d).

(** [computeTargetRange(data, value, exaggerate)].  The accumulators start
    at the [Number.POSITIVE_INFINITY] / [Number.NEGATIVE_INFINITY]
    sentinels, so the range is computed in [num]. *)
Definition computeTargetRange
    (data : list LiveLinePoint) (v : Q) (exaggerate : bool)
  : TargetRange.t num :=
  if (length data =? 0)%nat then TargetRange.mk (Fin 0) (Fin 100)
  else
    let '(min, max) := fold_left range_step data (PInf, NInf) in
    let min := if lt (Fin v) min then Fin v else min in
    let max := if gt (Fin v) max then Fin v else max in
    let rawRange := sub max min in
    let paddingFactor := if exaggerate then 0.03 else 0.15 in
    let rangePad :=
      or_else (mul rawRange (Fin paddingFactor))
              (Fin (if exaggerate then 0.04 else 10)) in
    TargetRange.mk (sub min rangePad) (add max rangePad).

(** [nextAnimFrame(prev, targetRange, targetValue, speed, isPaused)]; the
    reading of the wall clock, [Date.now()], is the explicit argument
    [clock].  Frames and targets are finite numbers: the first frame is
    [{ yMin: 0, yMax: 100 }] and the targets of [computeTargetRange] are
    finite. *)
Definition nextAnimFrame
    (prev : AnimFrame) (targetRange : TargetRange.t Q) (targetValue : Q)
    (speed : Q) (isPaused : bool) (clock : Z) : AnimFrame :=
  let nextNow := if isPaused then now prev else clock in
  let nextYMin :=
    if Qltb (TargetRange.yMin targetRange) (yMin prev)
    then TargetRange.yMin targetRange
    else yMin prev + (TargetRange.yMin targetRange - yMin prev) * speed in
  let nextYMax :=
    if Qltb (yMax prev) (TargetRange.yMax targetRange)
    then TargetRange.yMax targetRange
    else yMax prev + (TargetRange.yMax targetRange - yMax prev) * speed in
  let nextValue :=
    displayValue prev + (targetValue - displayValue prev) * speed in
  {| now := nextNow; yMin := nextYMin; yMax := nextYMax;
     displayValue := nextValue |}.

(** The [while (hi - lo > 1)] loop of [interpolateAtTime].  Every pass
    shrinks [hi - lo], so [fuel = hi - lo] passes always reach the exit
    test.  An index outside the array reads [undefined], which takes the
    [else] branch. *)
Fixpoint search_loop
    (fuel : nat) (points : list LiveLinePoint) (timeSec : Q) (lo hi : nat)
  : nat * nat :=
  match fuel with
  | O => (lo, hi)
  | S fuel' =>
      if (1 <? hi - lo)%nat then
        let mid := ((lo + hi) / 2)%nat in
        match points !! mid with
        | Some midPt =>
            if Qle_bool (time midPt) timeSec
            then search_loop fuel' points timeSec mid hi
            else search_loop fuel' points timeSec lo mid
        | None => search_loop fuel' points timeSec lo mid
        end
      else (lo, hi)
  end.

(** [interpolateAtTime(points, timeSec)]; [None] is the [null] result. *)
Definition interpolateAtTime
    (points : list LiveLinePoint) (timeSec : Q) : option Q :=
  if (length points =? 0)%nat then None
  else
    match head points, last points with
    | Some firstPt, Some lastPt =>
        if Qle_bool timeSec (time firstPt) then Some (value firstPt)
        else if Qle_bool (time lastPt) timeSec then Some (value lastPt)
        else
          let lo := 0%nat in
          let hi := (length points - 1)%nat in
          let '(lo, hi) := search_loop (hi - lo) points timeSec lo hi in
          match points !! lo with
          | None => None
          | Some p1 =>
              match points !! hi with
              | None => None
              | Some p2 =>
                  let dt := time p2 - time p1 in
                  if Qeq_bool dt 0 then Some (value p1)
                  else
                    let t := (timeSec - time p1) / dt in
                    Some (value p1 + (value p2 - value p1) * t)
              end
          end
    | _, _ => None
    end.

(** The time value of [new Date(ms)]: the number of milliseconds cut to an
    integer towards zero.  (The validity bound of [Date], 8.64e15 ms on
    either side of the epoch, is not modelled.) *)
Definition Qtruncate (q : Q) : Z :=
  if Qltb q 0 then Qceiling q else Qfloor q.

Definition Date (ms : Q) : Z := Qtruncate ms.

(** An element of the context data, [{ date, [dataKey]: value }], for a
    [dataKey] other than ["date"]. *)
Record ChartRecord : Type := mkRecord { date : Z; dataValue : Q }.

(** [(p) => ({ date: new Date(p.time * 1000), [dataKey]: p.value })]. *)
Definition toRecord (p : LiveLinePoint) : ChartRecord :=
  {| date := Date (time p * 1000); dataValue := value p |}.

(** Context data in the order of their dates. *)
Definition by_date (r s : ChartRecord) : Prop := (date r <= date s)%Z.

(** Modelled from the spec: the left-bisect of [contextData] is
    [bisector((d) => d.time).left] of d3-array, a dependency that is not
    part of the sources.  It is written after the spec's "left-bisect"
    and the loop d3-array publishes for it:
    [do { mid = (lo + hi) >>> 1;
          if (a[mid].time < x) lo = mid + 1; else hi = mid; }
     while (lo < hi)], entered only when [lo < hi].  [mid] lies below
    [hi <= a.length], so the read of [a[mid]] never misses. *)
Fixpoint bisect_loop
    (fuel : nat) (a : list LiveLinePoint) (x : Q) (lo hi : nat) : nat :=
  match fuel with
  | O => lo
  | S fuel' =>
      if (lo <? hi)%nat then
        let mid := ((lo + hi) / 2)%nat in
        match a !! mid with
        | Some d =>
            if Qltb (time d) x
            then bisect_loop fuel' a x (mid + 1)%nat hi
            else bisect_loop fuel' a x lo mid
        | None => lo
        end
      else lo
  end.

(** [bisectTime(a, x, lo)], with [hi] at its default [a.length]. *)
Definition bisectTime (a : list LiveLinePoint) (x : Q) (lo : nat) : nat :=
  bisect_loop (length a - lo) a x lo (length a).

(** The [contextData] memo of [LiveLineChartInner]: the visible slice of
    the stream, one point before the window kept, and the virtual tip. *)
Definition contextData
    (data : list LiveLinePoint) (frame : AnimFrame) (windowMs : Q)
  : list ChartRecord :=
  let windowStart := inject_Z (now frame) - windowMs in
  let startIdx := bisectTime data (windowStart / 1000) 0 in
  let startIdx :=
    if (0 <? startIdx)%nat then (startIdx - 1)%nat else startIdx in
  let sliced := drop startIdx data in
  let records := map toRecord sliced in
  records
    ++ [{| date := Date (inject_Z (now frame));
           dataValue := displayValue frame |}].

(** The series that [handleMouseMove] hands to [interpolateAtTime]:
    [[...data.filter((p) => p.time >= (frame.now - windowMs) / 1000),
      { time: frame.now / 1000, value: frame.displayValue }]]. *)
Definition hoverSeries
    (data : list LiveLinePoint) (frame : AnimFrame) (windowMs : Q)
  : list LiveLinePoint :=
  List.filter
    (fun p => Qle_bool ((inject_Z (now frame) - windowMs) / 1000) (time p))
    data
    ++ [{| time := inject_Z (now frame) / 1000;
           value := displayValue frame |}].

(** ** The tick-interval picker of the animated Y axis *)

Definition divisorSets : list (list Q) :=
  [[2; 2.5; 2]; [2; 2; 2.5]; [2.5; 2; 2]].

(** [divs[i % 3] ?? 2]. *)
Definition divisor (divs : list Q) (i : nat) : Q :=
  default 2 (divs !! (i mod 3)%nat).

(** [while ((span / d) * pxPerUnit >= minGap) { span /= d; i++;
    d = divs[i % 3] ?? 2; }]; [None] when the fuel runs out before the
    loop exits. *)
Fixpoint shrink_loop
    (fuel : nat) (divs : list Q) (pxPerUnit minGap span : Q) (i : nat)
    (d : Q) : option Q :=
  match fuel with
  | O => None
  | S fuel' =>
      if Qle_bool minGap ((span / d) * pxPerUnit) then
        let span := span / d in
        let i := S i in
        let d := divisor divs i in
        shrink_loop fuel' divs pxPerUnit minGap span i d
      else Some span
  end.

(** The body of [for (const divs of divisorSets)], on [best]. *)
Definition pick_step
    (fuel : nat) (valRange pxPerUnit minGap : Q) (best : option num)
    (divs : list Q) : option num :=
  best ← best;
  let span := 10 ^ ceil_log10 valRange in
  let i := 0%nat in
  let d := divisor divs i in
  span ← shrink_loop fuel divs pxPerUnit minGap span i d;
  Some (if lt (Fin span) best then Fin span else best).

(** [pickNiceInterval(valRange, chartHeight, minGap, prevInterval)]; each
    run of the inner loop may take [fuel] passes. *)
Definition pickNiceInterval
    (fuel : nat) (valRange chartHeight minGap prevInterval : Q)
  : option num :=
  if Qle_bool valRange 0 || Qle_bool chartHeight 0 then Some (Fin 1)
  else
    let pxPerUnit := chartHeight / valRange in
    let keep :=
      if Qltb 0 prevInterval then
        let px := prevInterval * pxPerUnit in
        Qle_bool (minGap * 0.5) px && Qle_bool px (minGap * 3)
      else false in
    if keep then Some (Fin prevInterval)
    else
      best ← fold_left (pick_step fuel valRange pxPerUnit minGap)
                       divisorSets (Some PInf);
      Some (if eqb best PInf then Fin (valRange / 5) else best).

(** The search in the words of the spec: the span after [n] divisions of
    [span0] by the divisors of the cycle [divs], taken in turn. *)
Fixpoint cycle_span (divs : list Q) (span0 : Q) (n : nat) : Q :=
  match n with
  | O => span0
  | S n' => cycle_span divs span0 n' / divisor divs n'
  end.

(** [span] is the candidate of the cycle [divs]: the span reached by
    dividing for as long as the next division keeps the pixel spacing at
    [minGap] or more. *)
Definition candidate
    (divs : list Q) (span0 pxPerUnit minGap span : Q) : Prop :=
  exists n : nat,
    span = cycle_span divs span0 n
    /\ (forall m : nat,
           (m < n)%nat -> minGap <= cycle_span divs span0 (S m) * pxPerUnit)
    /\ cycle_span divs span0 (S n) * pxPerUnit < minGap.

(** ** live-y-axis.tsx *)

(** [for (let v = start; v <= max; v += niceStep) ticks.push(v)]; [None]
    when the fuel runs out before the loop exits. *)
Fixpoint tick_loop (fuel : nat) (v max niceStep : num) : option (list num) :=
  match fuel with
  | O => None
  | S fuel' =>
      if le v max then
        ticks ← tick_loop fuel' (add v niceStep) max niceStep;
        Some (v :: ticks)
      else Some []
  end.

(** [niceGridTicks(min, max, count)]. *)
Definition niceGridTicks (fuel : nat) (min max count : Q)
  : option (list num) :=
  let range := max - min in
  if Qle_bool range 0 then Some []
  else
    let rawStep := div (Fin range) (Fin count) in
    let magnitude := pow10_floor_log10 rawStep in
    let residual := div rawStep magnitude in
    let niceStep :=
      if le residual (Fin 1.5) then magnitude
      else if le residual (Fin 3) then mul (Fin 2) magnitude
      else if le residual (Fin 7) then mul (Fin 5) magnitude
      else mul (Fin 10) magnitude in
    let start := mul (ceil (div (Fin min) niceStep)) niceStep in
    tick_loop fuel start (Fin max) niceStep.

(** ** The live line: momentum *)

Inductive Momentum : Type := up | down | flat.

(** One pass of [for (let i = start; i < data.length; i++)] in
    [detectMomentum]; every entry of a numeric series passes the
    [typeof v === "number"] test. *)
Definition momentum_step (data : list Q) (acc : num * num) (i : nat)
  : num * num :=
  match data !! i with
  | Some v => minmax_step acc v
  | None => acc
  end.

(** The words of the spec: the window of the last [min(lookback, length)]
    points, the least and the greatest value of a list, and the value at
    the start of the trailing five points of the window, the five cut
    down to the window when it is shorter. *)
Definition window (data : list Q) (lookback : Z) : list Q :=
  drop
    (length data - Z.to_nat (Z.min lookback (Z.of_nat (length data))))%nat
    data.

Definition is_min (m : Q) (l : list Q) : Prop :=
  m ∈ l /\ Forall (fun x => m <= x) l.

Definition is_max (m : Q) (l : list Q) : Prop :=
  m ∈ l /\ Forall (fun x => x <= m) l.


(** [detectMomentum(data, dataKey, lookback)] on the column of [dataKey]
    values of a numeric series. *)
Definition detectMomentum (data : list Q) (lookback : Z) : Momentum :=
  let len := Z.of_nat (length data) in
  if (len <? 5)%Z then flat
  else
    let start := Z.to_nat (Z.max 0 (len - lookback)) in
    let '(min, max) :=
      fold_left (momentum_step data) (seq start (length data - start))
                (PInf, NInf) in
    let range := sub max min in
    if eqb range (Fin 0) then flat
    else
      let tailStart := Nat.max start (length data - 5) in
      let first := default 0 (data !! tailStart) in
      let last := default 0 (last data) in
      let delta := last - first in
      let threshold := mul range (Fin 0.12) in
      if gt (Fin delta) threshold then up
      else if lt (Fin delta) (neg threshold) then down
      else flat.

(** ** Further functions of the sources *)

(** [Math.min] and [Math.abs] on finite numbers. *)
Definition Math_min (a b : Q) : Q := if Qle_bool a b then a else b.

Definition Math_abs (a : Q) : Q := if Qltb a 0 then - a else a.

(** The frame loop of [LiveLineChartInner]: one call of [tick] replaces
    [animRef.current] by the next frame.  A tick reads the pause flag and
    the clock, so a run of the loop is a list of such pairs. *)
Definition tick
    (targetRange : TargetRange.t Q) (targetValue speed : Q)
    (frame : AnimFrame) (reading : bool * Z) : AnimFrame :=
  nextAnimFrame frame targetRange targetValue speed (fst reading)
                (snd reading).

Definition runTicks
    (targetRange : TargetRange.t Q) (targetValue speed : Q)
    (frame : AnimFrame) (readings : list (bool * Z)) : AnimFrame :=
  fold_left (tick targetRange targetValue speed) readings frame.

(** [edgeOpacity(y, chartHeight)] of the animated Y axis, with
    [EDGE_FADE_PX = 28]. *)
Definition EDGE_FADE_PX : Q := 28.

Definition edgeOpacity (y chartHeight : Q) : Q :=
  let fromEdge := Math_min y (chartHeight - y) in
  if Qle_bool EDGE_FADE_PX fromEdge then 1
  else if Qle_bool fromEdge 0 then 0
  else fromEdge / EDGE_FADE_PX.

(** The hysteresis test of [pickNiceInterval]: the previous interval is
    positive and its pixel spacing lies within
    [[0.5 * minGap, 3 * minGap]]. *)
Definition keepsInterval
    (valRange chartHeight minGap prevInterval : Q) : bool :=
  if Qltb 0 prevInterval then
    let px := prevInterval * (chartHeight / valRange) in
    Qle_bool (minGap * 0.5) px && Qle_bool px (minGap * 3)
  else false.

(** A nice number: 1, 2, 2.5, 4 or 5 times a power of ten. *)
Definition nice (x : Q) : Prop :=
  exists (m : Q) (j : Z),
    (m = 1 \/ m = 2 \/ m = 2.5 \/ m = 4 \/ m = 5) /\ x == m * 10 ^ j.

(** [labelFadeOpacity(labelX, crosshairX, isHovering)] of the X axis, with
    [TICKER_HALF_WIDTH = 50] and [FADE_BUFFER = 20]; [None] is a [null]
    crosshair. *)
Definition TICKER_HALF_WIDTH : Q := 50.
Definition FADE_BUFFER : Q := 20.

Definition labelFadeOpacity
    (labelX : Q) (crosshairX : option Q) (isHovering : bool) : Q :=
  match crosshairX with
  | None => 1
  | Some crosshairX =>
      if negb isHovering then 1
      else
        let distance := Math_abs (labelX - crosshairX) in
        if Qltb distance TICKER_HALF_WIDTH then 0
        else if Qltb distance (TICKER_HALF_WIDTH + FADE_BUFFER)
             then (distance - TICKER_HALF_WIDTH) / FADE_BUFFER
             else 1
  end.

(** The times of the labels of [LiveXAxis]:
    [step = (endMs - startMs) / (numTicks - 1)] and, for the indices
    [i] of [Array.from({ length: numTicks })], [t = startMs + i * step].
    A single tick divides by zero, so the times are computed in [num]. *)
Definition labelStep (startMs endMs : Q) (numTicks : nat) : num :=
  div (Fin (endMs - startMs)) (Fin (inject_Z (Z.of_nat numTicks) - 1)).

Definition labelTimes (startMs endMs : Q) (numTicks : nat) : list num :=
  map (fun i : nat =>
         add (Fin startMs)
             (mul (Fin (inject_Z (Z.of_nat i)))
                  (labelStep startMs endMs numTicks)))
      (seq 0 numTicks).

(** The decision that ends [detectMomentum], on the range of the window
    and the change over its trailing five values. *)
Definition classify (range delta : Q) : Momentum :=
  if Qeq_bool range 0 then flat
  else if Qltb (range * 0.12) delta then up
  else if Qltb delta (- (range * 0.12)) then down
  else flat.

(** The momentum of the mirrored series. *)
Definition opposite (m : Momentum) : Momentum :=
  match m with
  | up => down
  | down => up
  | flat => flat
  end.

(** ** Binary64 arithmetic *)

(** The numbers of the source are IEEE 754 binary64 numbers, and each
    arithmetic operation rounds its exact result to the nearest of them,
    a tie going to the even significand.  [B64] is this rounding on the
    rationals, with 53 significant bits.  The exponent is not bounded:
    overflow to [Infinity] (beyond about [1.8e308]) and the subnormal
    numbers (below about [2.2e-308]) are not modelled. *)
Module B64.

(** The nearest integer, a tie going to the even one. *)
Definition rne (x : Q) : Z :=
  let f := Qfloor x in
  match Qcompare (x - inject_Z f) (1 # 2) with
  | Lt => f
  | Eq => if Z.even f then f else (f + 1)%Z
  | Gt => (f + 1)%Z
  end.

(** The binary exponent of a positive number: the integer [e] with
    [2^e <= x < 2^(e+1)]. *)
Definition ilog2 (x : Q) : Z :=
  let e := (Z.log2 (Qnum x) - Z.log2 (Zpos (Qden x)))%Z in
  if Qle_bool (2 ^ e) x then e else (e - 1)%Z.

(** The unit in the last place of a positive number. *)
Definition ulp (x : Q) : Q := 2 ^ (ilog2 x - 52).

Definition round_pos (x : Q) : Q := inject_Z (rne (x / ulp x)) * ulp x.

(** The binary64 number nearest to [x]. *)
Definition round (x : Q) : Q :=
  match Qcompare x 0 with
  | Eq => 0
  | Gt => round_pos x
  | Lt => - round_pos (- x)
  end.

(** [x] is a binary64 number. *)
Definition is_double (x : Q) : Prop := round x == x.

(** The four operations of the source on binary64 numbers. *)
Definition add (x y : Q) : Q := round (x + y).
Definition sub (x y : Q) : Q := round (x - y).
Definition mul (x y : Q) : Q := round (x * y).
Definition div (x y : Q) : Q := round (x / y).

End B64.

Notation "x ⊕ y" := (B64.add x y) (at level 50, left associativity).
Notation "x ⊖ y" := (B64.sub x y) (at level 50, left associativity).
Notation "x ⊗ y" := (B64.mul x y) (at level 40, left associativity).
Notation "x ⊘ y" := (B64.div x y) (at level 40, left associativity).

(** ** The functions of the source in binary64 arithmetic *)

(** The functions below are the ones above with every arithmetic
    operation of the source rounded: [⊕], [⊖], [⊗] and [⊘] on finite
    numbers, [rnd] after an operation of [num].  A decimal literal of the
    source stands for the binary64 number nearest to it.  Comparisons are
    exact.  [Math.log10], [**] and [Math.ceil] are taken to be exact up to
    the rounding of their result. *)
Module Rounded.

Definition rnd (a : num) : num :=
  match a with
  | Fin q => Fin (B64.round q)
  | _ => a
  end.

(** [computeTargetRange(data, value, exaggerate)]. *)
Definition computeTargetRange
    (data : list LiveLinePoint) (v : Q) (exaggerate : bool)
  : TargetRange.t num :=
  if (length data =? 0)%nat then TargetRange.mk (Fin 0) (Fin 100)
  else
    let '(min, max) := fold_left range_step data (PInf, NInf) in
    let min := if lt (Fin v) min then Fin v else min in
    let max := if gt (Fin v) max then Fin v else max in
    let rawRange := rnd (sub max min) in
    let paddingFactor := B64.round (if exaggerate then 0.03 else 0.15) in
    let rangePad :=
      or_else (rnd (mul rawRange (Fin paddingFactor)))
              (Fin (if exaggerate then B64.round 0.04 else 10)) in
    TargetRange.mk (rnd (sub min rangePad)) (rnd (add max rangePad)).

(** [nextAnimFrame(prev, targetRange, targetValue, speed, isPaused)]. *)
Definition nextAnimFrame
    (prev : AnimFrame) (targetRange : TargetRange.t Q) (targetValue : Q)
    (speed : Q) (isPaused : bool) (clock : Z) : AnimFrame :=
  let nextNow := if isPaused then now prev else clock in
  let nextYMin :=
    if Qltb (TargetRange.yMin targetRange) (yMin prev)
    then TargetRange.yMin targetRange
    else yMin prev ⊕ (TargetRange.yMin targetRange ⊖ yMin prev) ⊗ speed in
  let nextYMax :=
    if Qltb (yMax prev) (TargetRange.yMax targetRange)
    then TargetRange.yMax targetRange
    else yMax prev ⊕ (TargetRange.yMax targetRange ⊖ yMax prev) ⊗ speed in
  let nextValue :=
    displayValue prev ⊕ (targetValue ⊖ displayValue prev) ⊗ speed in
  {| now := nextNow; yMin := nextYMin; yMax := nextYMax;
     displayValue := nextValue |}.

(** The [while] loop of [pickNiceInterval]. *)
Fixpoint shrink_loop
    (fuel : nat) (divs : list Q) (pxPerUnit minGap span : Q) (i : nat)
    (d : Q) : option Q :=
  match fuel with
  | O => None
  | S fuel' =>
      if Qle_bool minGap ((span ⊘ d) ⊗ pxPerUnit) then
        let span := span ⊘ d in
        let i := S i in
        let d := divisor divs i in
        shrink_loop fuel' divs pxPerUnit minGap span i d
      else Some span
  end.

(** [10 ** Math.ceil(Math.log10(valRange))]. *)
Definition startSpan (valRange : Q) : Q :=
  B64.round (10 ^ ceil_log10 valRange).

Definition pick_step
    (fuel : nat) (valRange pxPerUnit minGap : Q) (best : option num)
    (divs : list Q) : option num :=
  best ← best;
  let span := startSpan valRange in
  let i := 0%nat in
  let d := divisor divs i in
  span ← shrink_loop fuel divs pxPerUnit minGap span i d;
  Some (if lt (Fin span) best then Fin span else best).

(** The hysteresis test of [pickNiceInterval]. *)
Definition keepsInterval
    (valRange chartHeight minGap prevInterval : Q) : bool :=
  if Qltb 0 prevInterval then
    let px := prevInterval ⊗ (chartHeight ⊘ valRange) in
    Qle_bool (minGap ⊗ 0.5) px && Qle_bool px (minGap ⊗ 3)
  else false.

(** [pickNiceInterval(valRange, chartHeight, minGap, prevInterval)]. *)
Definition pickNiceInterval
    (fuel : nat) (valRange chartHeight minGap prevInterval : Q)
  : option num :=
  if Qle_bool valRange 0 || Qle_bool chartHeight 0 then Some (Fin 1)
  else
    let pxPerUnit := chartHeight ⊘ valRange in
    if keepsInterval valRange chartHeight minGap prevInterval
    then Some (Fin prevInterval)
    else
      best ← fold_left (pick_step fuel valRange pxPerUnit minGap)
                       divisorSets (Some PInf);
      Some (if eqb best PInf then Fin (valRange ⊘ 5) else best).

(** The span after [n] rounded divisions of [span0] by the divisors of
    the cycle [divs], taken in turn. *)
Fixpoint cycle_span (divs : list Q) (span0 : Q) (n : nat) : Q :=
  match n with
  | O => span0
  | S n' => cycle_span divs span0 n' ⊘ divisor divs n'
  end.

(** [span] is the candidate of the cycle [divs]: the span reached by
    dividing for as long as the loop test, [(span / d) * pxPerUnit >=
    minGap] in binary64, holds. *)
Definition candidate
    (divs : list Q) (span0 pxPerUnit minGap span : Q) : Prop :=
  exists n : nat,
    span = cycle_span divs span0 n
    /\ (forall m : nat,
           (m < n)%nat -> minGap <= cycle_span divs span0 (S m) ⊗ pxPerUnit)
    /\ cycle_span divs span0 (S n) ⊗ pxPerUnit < minGap.

(** The [for] loop of [niceGridTicks]. *)
Fixpoint tick_loop (fuel : nat) (v max niceStep : num) : option (list num) :=
  match fuel with
  | O => None
  | S fuel' =>
      if le v max then
        ticks ← tick_loop fuel' (rnd (add v niceStep)) max niceStep;
        Some (v :: ticks)
      else Some []
  end.

(** The step [niceStep] and the first tick [start] of [niceGridTicks]. *)
Definition niceStep (min max count : Q) : num :=
  let range := max ⊖ min in
  let rawStep := rnd (div (Fin range) (Fin count)) in
  let magnitude := rnd (pow10_floor_log10 rawStep) in
  let residual := rnd (div rawStep magnitude) in
  if le residual (Fin 1.5) then magnitude
  else if le residual (Fin 3) then rnd (mul (Fin 2) magnitude)
  else if le residual (Fin 7) then rnd (mul (Fin 5) magnitude)
  else rnd (mul (Fin 10) magnitude).

Definition tickStart (min : Q) (niceStep : num) : num :=
  rnd (mul (ceil (rnd (div (Fin min) niceStep))) niceStep).

(** [niceGridTicks(min, max, count)]. *)
Definition niceGridTicks (fuel : nat) (min max count : Q)
  : option (list num) :=
  let range := max ⊖ min in
  if Qle_bool range 0 then Some []
  else
    let niceStep := niceStep min max count in
    tick_loop fuel (tickStart min niceStep) (Fin max) niceStep.

End Rounded.

(** * Properties *)

(** ** Boolean comparisons and their propositions *)

Lemma Qltb_iff (x y : Q) : Qltb x y = true <-> x < y.
Proof.
  unfold Qltb. rewrite negb_true_iff, <- not_true_iff_false, Qle_bool_iff.
  split; lra.
Qed.

Lemma Qltb_false_iff (x y : Q) : Qltb x y = false <-> y <= x.
Proof.
  unfold Qltb. rewrite negb_false_iff. apply Qle_bool_iff.
Qed.

Lemma Qle_bool_false_iff (x y : Q) : Qle_bool x y = false <-> y < x.
Proof.
  rewrite <- not_true_iff_false, Qle_bool_iff. split; lra.
Qed.

Lemma Qeq_bool_false_iff (x y : Q) : Qeq_bool x y = false <-> ~ x == y.
Proof.
  rewrite <- not_true_iff_false, Qeq_bool_iff. tauto.
Qed.

(** Turns the boolean tests of the hypotheses and of the goal into
    statements of linear arithmetic. *)
Ltac qbool :=
  repeat match goal with
  | H : Qltb _ _ = true |- _ => apply Qltb_iff in H
  | H : Qltb _ _ = false |- _ => apply Qltb_false_iff in H
  | H : Qle_bool _ _ = true |- _ => apply Qle_bool_iff in H
  | H : Qle_bool _ _ = false |- _ => apply Qle_bool_false_iff in H
  | H : Qeq_bool _ _ = true |- _ => apply Qeq_bool_iff in H
  | H : Qeq_bool _ _ = false |- _ => apply Qeq_bool_false_iff in H
  | |- Qltb _ _ = true => apply Qltb_iff
  | |- Qltb _ _ = false => apply Qltb_false_iff
  | |- Qle_bool _ _ = true => apply Qle_bool_iff
  | |- Qle_bool _ _ = false => apply Qle_bool_false_iff
  | |- Qeq_bool _ _ = true => apply Qeq_bool_iff
  | |- Qeq_bool _ _ = false => apply Qeq_bool_false_iff
  end.

(** ** The min/max loops *)

Lemma is_min_unique (a b : Q) (l : list Q) :
  is_min a l -> is_min b l -> a == b.
Proof.
  intros [Ha Hla] [Hb Hlb]. rewrite Forall_forall in Hla, Hlb.
  apply Qle_antisym; auto.
Qed.

Lemma is_max_unique (a b : Q) (l : list Q) :
  is_max a l -> is_max b l -> a == b.
Proof.
  intros [Ha Hla] [Hb Hlb]. rewrite Forall_forall in Hla, Hlb.
  apply Qle_antisym; auto.
Qed.

Lemma is_min_le_max (a b : Q) (l : list Q) :
  is_min a l -> is_max b l -> a <= b.
Proof.
  intros [_ Hla] [Hb _]. rewrite Forall_forall in Hla. auto.
Qed.

Lemma is_min_snoc (a v : Q) (seen : list Q) :
  is_min a seen -> is_min (if Qltb v a then v else a) (seen ++ [v]).
Proof.
  intros [Ha Hla]. destruct (Qltb v a) eqn:E; qbool; split.
  - apply elem_of_app. right. now apply list_elem_of_singleton.
  - apply Forall_app. split; [|repeat constructor; lra].
    eapply Forall_impl; [exact Hla|]. cbn. intros x Hx. lra.
  - apply elem_of_app. now left.
  - apply Forall_app. split; [exact Hla | repeat constructor; lra].
Qed.

Lemma is_max_snoc (b v : Q) (seen : list Q) :
  is_max b seen -> is_max (if Qltb b v then v else b) (seen ++ [v]).
Proof.
  intros [Hb Hlb]. destruct (Qltb b v) eqn:E; qbool; split.
  - apply elem_of_app. right. now apply list_elem_of_singleton.
  - apply Forall_app. split; [|repeat constructor; lra].
    eapply Forall_impl; [exact Hlb|]. cbn. intros x Hx. lra.
  - apply elem_of_app. now left.
  - apply Forall_app. split; [exact Hlb | repeat constructor; lra].
Qed.

(** Once the accumulators are finite they hold the least and the greatest
    value seen so far. *)
Lemma minmax_fold_finite :
  forall (l seen : list Q) (a b : Q),
    is_min a seen -> is_max b seen ->
    exists a' b' : Q,
      fold_left minmax_step l (Fin a, Fin b) = (Fin a', Fin b')
      /\ is_min a' (seen ++ l) /\ is_max b' (seen ++ l).
Proof.
  induction l as [|v l IH]; intros seen a b Ha Hb.
  - exists a, b. rewrite app_nil_r. auto.
  - cbn [fold_left minmax_step lt gt].
    destruct (IH (seen ++ [v]) _ _ (is_min_snoc a v seen Ha)
                 (is_max_snoc b v seen Hb)) as (a' & b' & E & Ha' & Hb').
    exists a', b'. rewrite <- app_assoc in Ha', Hb'. cbn in Ha', Hb'.
    split; [|auto].
    rewrite <- E. f_equal. f_equal; [now destruct (Qltb v a)|].
    now destruct (Qltb b v).
Qed.

(** From the sentinels, the loop over a non-empty list ends on its least
    and its greatest value. *)
Lemma minmax_fold_sentinel (l : list Q) :
  l <> [] ->
  exists a b : Q,
    fold_left minmax_step l (PInf, NInf) = (Fin a, Fin b)
    /\ is_min a l /\ is_max b l.
Proof.
  destruct l as [|v l]; [congruence|]. intros _.
  cbn [fold_left minmax_step lt gt].
  apply (minmax_fold_finite l [v] v v); split;
    try (now apply list_elem_of_singleton);
    repeat constructor; lra.
Qed.

(** The index loop of [detectMomentum] visits the entries from [s] on. *)
Lemma momentum_fold_seq (data : list Q) :
  forall (n s : nat) (acc : num * num),
    (s + n <= length data)%nat ->
    fold_left (momentum_step data) (seq s n) acc
    = fold_left minmax_step (take n (drop s data)) acc.
Proof.
  induction n as [|n IH]; intros s acc Hlen; [reflexivity|].
  destruct (lookup_lt_is_Some_2 data s ltac:(lia)) as [v Hv].
  rewrite (drop_S _ _ _ Hv). cbn [seq fold_left take].
  unfold momentum_step at 2. rewrite Hv. apply IH. lia.
Qed.

(** ** The animator: [computeTargetRange] and [nextAnimFrame] *)

(** C10. On an empty series [computeTargetRange] returns the fixed range
    [{ yMin: 0, yMax: 100 }], whatever the live value and the padding
    mode. *)
Theorem computeTargetRange_empty (v : Q) (exaggerate : bool) :
  computeTargetRange [] v exaggerate = TargetRange.mk (Fin 0) (Fin 100).
Proof. reflexivity. Qed.

(** The end-to-end series of the spec: the values 10, 12, 11 and the live
    value 13, padded by 15 % of their range. *)
Example computeTargetRange_end_to_end :
  computeTargetRange [mkPoint 0 10; mkPoint 1 12; mkPoint 2 11] 13 false
  = TargetRange.mk (Fin 9.55) (Fin 13.45).
Proof. reflexivity. Qed.

(** C2. The transition of the animator: [yMax] is set to the target at
    once when the target lies above it and is eased otherwise; [yMin] is
    set to the target at once when the target lies below it and is eased
    otherwise; the displayed value is always eased. *)
Theorem nextAnimFrame_transition
    (prev : AnimFrame) (target : TargetRange.t Q) (targetValue speed : Q)
    (isPaused : bool) (clock : Z) :
  let next := nextAnimFrame prev target targetValue speed isPaused clock in
  (TargetRange.yMax target > yMax prev ->
   yMax next = TargetRange.yMax target) /\
  (~ TargetRange.yMax target > yMax prev ->
   yMax next
   = yMax prev + (TargetRange.yMax target - yMax prev) * speed) /\
  (TargetRange.yMin target < yMin prev ->
   yMin next = TargetRange.yMin target) /\
  (~ TargetRange.yMin target < yMin prev ->
   yMin next
   = yMin prev + (TargetRange.yMin target - yMin prev) * speed) /\
  displayValue next
  = displayValue prev + (targetValue - displayValue prev) * speed.
Proof.
  cbn. repeat split; intros H.
  - apply Qltb_iff in H. now rewrite H.
  - destruct (Qltb _ _) eqn:E; [apply Qltb_iff in E; contradiction | easy].
  - apply Qltb_iff in H. now rewrite H.
  - destruct (Qltb _ _) eqn:E; [apply Qltb_iff in E; contradiction | easy].
Qed.

(** The spec's example of the asymmetry: from [yMax = 100] a target of
    [150] is taken at once, a target of [90] is approached by the ease. *)
Lemma nextAnimFrame_transition_witness :
  yMax (nextAnimFrame (mkFrame 0 0 100 50) (TargetRange.mk 0 150)
                      60 0.08 false 16) = 150
  /\ yMax (nextAnimFrame (mkFrame 0 0 100 50) (TargetRange.mk 0 90)
                         60 0.08 false 16) = 100 + (90 - 100) * 0.08.
Proof.
  split.
  - apply (nextAnimFrame_transition
             (mkFrame 0 0 100 50) (TargetRange.mk 0 150) 60 0.08 false 16).
    cbn. lra.
  - apply (nextAnimFrame_transition
             (mkFrame 0 0 100 50) (TargetRange.mk 0 90) 60 0.08 false 16).
    cbn. lra.
Defined.

(** ** The interpolator: [interpolateAtTime] *)

Lemma mid_between (lo hi : nat) :
  (1 < hi - lo)%nat -> (lo < (lo + hi) / 2 < hi)%nat.
Proof.
  intros H. pose proof (Nat.div_mod_eq (lo + hi) 2) as E.
  pose proof (Nat.mod_upper_bound (lo + hi) 2). lia.
Qed.

(** The binary search ends on two neighbouring indices inside the array
    and keeps what is known of the times at its two ends. *)
Lemma search_loop_inv (points : list LiveLinePoint) (t : Q) :
  forall (fuel lo hi : nat),
    (hi - lo <= fuel)%nat -> (lo < hi)%nat -> (hi < length points)%nat ->
    exists lo',
      search_loop fuel points t lo hi = (lo', S lo')
      /\ (lo <= lo')%nat /\ (S lo' <= hi)%nat
      /\ ((forall p, points !! lo = Some p -> time p <= t) ->
          forall p, points !! lo' = Some p -> time p <= t)
      /\ ((forall p, points !! hi = Some p -> t < time p) ->
          forall p, points !! S lo' = Some p -> t < time p).
Proof.
  induction fuel as [|fuel IH]; intros lo hi Hfuel Hlt Hlen; [lia|].
  cbn [search_loop]. destruct (1 <? hi - lo)%nat eqn:Hgap.
  - apply Nat.ltb_lt in Hgap. pose proof (mid_between lo hi Hgap) as Hmid.
    set (mid := ((lo + hi) / 2)%nat) in *.
    destruct (lookup_lt_is_Some_2 points mid ltac:(lia)) as [midPt HmidPt].
    rewrite HmidPt. destruct (Qle_bool (time midPt) t) eqn:Hcmp; qbool.
    + destruct (IH mid hi ltac:(lia) ltac:(lia) Hlen)
        as (lo' & -> & ? & ? & Hl & Hh).
      exists lo'. repeat split; [lia | lia | | exact Hh].
      intros _. apply Hl. intros p Hp. congruence.
    + destruct (IH lo mid ltac:(lia) ltac:(lia) ltac:(lia))
        as (lo' & -> & ? & ? & Hl & Hh).
      exists lo'. repeat split; [lia | lia | exact Hl |].
      intros _. apply Hh. intros p Hp. congruence.
  - apply Nat.ltb_ge in Hgap. exists lo.
    replace hi with (S lo) by lia. repeat split; auto.
Qed.

(** A series whose first sample lies strictly before its last one has at
    least two samples. *)
Lemma two_samples
    (points : list LiveLinePoint) (firstPt lastPt : LiveLinePoint) :
  head points = Some firstPt -> last points = Some lastPt ->
  time firstPt < time lastPt -> (0 < length points - 1)%nat.
Proof.
  destruct points as [|p [|q l]]; cbn; intros Hf Hl Hlt; try discriminate.
  - injection Hf as ->. injection Hl as ->. lra.
  - lia.
Qed.

(** C7. [interpolateAtTime] gives [null] on the empty series, for every
    query time, and on no other series. *)
Theorem interpolateAtTime_null_iff_empty
    (points : list LiveLinePoint) (timeSec : Q) :
  interpolateAtTime points timeSec = None <-> points = [].
Proof.
  split; [|intros ->; reflexivity].
  destruct points as [|p l]; [reflexivity|]. intros H. exfalso.
  unfold interpolateAtTime in H. cbn [length Nat.eqb head] in H.
  destruct (last (p :: l)) as [lastPt|] eqn:Hlast;
    [|apply last_None in Hlast; discriminate].
  destruct (Qle_bool timeSec (time p)) eqn:H1; [discriminate|].
  destruct (Qle_bool (time lastPt) timeSec) eqn:H2; [discriminate|].
  qbool.
  pose proof (two_samples (p :: l) p lastPt eq_refl Hlast ltac:(lra)) as Hn.
  destruct (search_loop_inv (p :: l) timeSec (length (p :: l) - 1 - 0) 0
              (length (p :: l) - 1) ltac:(lia) Hn ltac:(cbn; lia))
    as (lo' & Hs & _ & Hhi & _).
  cbn [length] in *. rewrite Hs in H.
  destruct (lookup_lt_is_Some_2 (p :: l) lo' ltac:(cbn; lia)) as [p1 Hp1].
  destruct (lookup_lt_is_Some_2 (p :: l) (S lo') ltac:(cbn; lia)) as [p2 Hp2].
  rewrite Hp1, Hp2 in H. destruct (Qeq_bool _ _); discriminate.
Qed.

(** In an ascending series the times grow with the index. *)
Lemma ascending_lookup (points : list LiveLinePoint) :
  ascending points ->
  forall (i j : nat) (p q : LiveLinePoint),
    (i <= j)%nat -> points !! i = Some p -> points !! j = Some q ->
    time p <= time q.
Proof.
  intros Hs. apply Sorted.Sorted_StronglySorted in Hs;
    [|intros x y z; apply Qle_trans].
  induction Hs as [|a l Hl IH Ha]; intros i j p q Hij Hp Hq.
  - discriminate.
  - destruct i as [|i], j as [|j]; cbn in Hp, Hq.
    + injection Hp as ->. injection Hq as ->. apply Qle_refl.
    + injection Hp as ->. rewrite Forall_forall in Ha. apply Ha.
      eapply list_elem_of_lookup_2; eauto.
    + lia.
    + apply (IH i j); auto. lia.
Qed.

(** The three branches of [interpolateAtTime] on a non-empty series: the
    clamp on the left, the clamp on the right, and the interpolation
    between two neighbours that bracket the query time.  The test
    [dt === 0] never holds in the third branch. *)
Lemma interpolateAtTime_cases
    (points : list LiveLinePoint) (firstPt lastPt : LiveLinePoint) (t : Q) :
  head points = Some firstPt -> last points = Some lastPt ->
  (t <= time firstPt ->
   interpolateAtTime points t = Some (value firstPt))
  /\ (time firstPt < t -> time lastPt <= t ->
      interpolateAtTime points t = Some (value lastPt))
  /\ (time firstPt < t -> t < time lastPt ->
      exists (i : nat) (p1 p2 : LiveLinePoint),
        points !! i = Some p1 /\ points !! S i = Some p2
        /\ time p1 <= t /\ t < time p2
        /\ interpolateAtTime points t
           = Some (value p1
                   + (value p2 - value p1)
                     * ((t - time p1) / (time p2 - time p1)))).
Proof.
  intros Hhead Hlast. unfold interpolateAtTime.
  assert ((length points =? 0)%nat = false) as ->.
  { destruct points; [discriminate | reflexivity]. }
  rewrite Hhead, Hlast. repeat split.
  - intros H. apply Qle_bool_iff in H. now rewrite H.
  - intros H1 H2. apply Qle_bool_false_iff in H1. apply Qle_bool_iff in H2.
    now rewrite H1, H2.
  - intros H1 H2.
    pose proof (two_samples points firstPt lastPt Hhead Hlast ltac:(lra))
      as Hn.
    destruct (search_loop_inv points t (length points - 1 - 0) 0
                (length points - 1) ltac:(lia) Hn ltac:(lia))
      as (i & Hs & _ & Hhi & Hlo' & Hhi').
    assert (forall p, points !! i = Some p -> time p <= t) as Hl.
    { apply Hlo'. intros p Hp. rewrite <- head_lookup, Hhead in Hp.
      injection Hp as <-. lra. }
    assert (forall p, points !! S i = Some p -> t < time p) as Hh.
    { apply Hhi'. intros p Hp.
      rewrite last_lookup in Hlast.
      replace (Init.Nat.pred (length points)) with (length points - 1)%nat
        in Hlast by lia.
      rewrite Hlast in Hp. injection Hp as <-. lra. }
    destruct (lookup_lt_is_Some_2 points i ltac:(lia)) as [p1 Hp1].
    destruct (lookup_lt_is_Some_2 points (S i) ltac:(lia)) as [p2 Hp2].
    specialize (Hl p1 Hp1). specialize (Hh p2 Hp2).
    exists i, p1, p2. repeat split; auto.
    apply Qle_bool_false_iff in H1. apply Qle_bool_false_iff in H2.
    rewrite H1, H2, Hs, Hp1, Hp2.
    assert (Qeq_bool (time p2 - time p1) 0 = false) as ->
      by (qbool; lra).
    reflexivity.
Qed.

(** C1, amended. On a non-empty ascending series [interpolateAtTime]
    returns the first value for [t <= first.time]; the last value for
    [t >= last.time] once [t > first.time]; between the two, the linear
    interpolation over neighbours [p1], [p2] with
    [p1.time <= t < p2.time]; and, when [t] is the time of a sample that
    shares its time with no other sample, the value of that sample. *)
Theorem interpolateAtTime_ascending
    (points : list LiveLinePoint) (firstPt lastPt : LiveLinePoint) (t : Q) :
  ascending points ->
  head points = Some firstPt -> last points = Some lastPt ->
  (t <= time firstPt ->
   interpolateAtTime points t = Some (value firstPt))
  /\ (time firstPt < t -> time lastPt <= t ->
      interpolateAtTime points t = Some (value lastPt))
  /\ (time firstPt < t -> t < time lastPt ->
      exists (i : nat) (p1 p2 : LiveLinePoint) (v : Q),
        points !! i = Some p1 /\ points !! S i = Some p2
        /\ time p1 <= t /\ t < time p2
        /\ interpolateAtTime points t = Some v
        /\ v == value p1
                + (value p2 - value p1) * (t - time p1)
                  / (time p2 - time p1))
  /\ (forall (j : nat) (p : LiveLinePoint),
        points !! j = Some p -> time p == t ->
        (forall (k : nat) (q : LiveLinePoint),
            points !! k = Some q -> time q == t -> k = j) ->
        exists v : Q, interpolateAtTime points t = Some v /\ v == value p).
Proof.
  intros Hasc Hhead Hlast.
  destruct (interpolateAtTime_cases points firstPt lastPt t Hhead Hlast)
    as (Hleft & Hright & Hmid).
  split; [exact Hleft|]. split; [exact Hright|]. split.
  - intros H1 H2. destruct (Hmid H1 H2) as (i & p1 & p2 & ? & ? & ? & ? & E).
    exists i, p1, p2. eexists. do 5 (split; [eassumption|]).
    unfold Qdiv. ring.
  - intros j p Hp Ht Huniq.
    pose proof (ascending_lookup points Hasc) as Hmono.
    assert (points !! 0%nat = Some firstPt) as Hf
      by (now rewrite <- head_lookup).
    assert (points !! Init.Nat.pred (length points) = Some lastPt) as Hl
      by (now rewrite <- last_lookup).
    pose proof (lookup_lt_Some _ _ _ Hp) as Hj.
    destruct (Qlt_le_dec (time firstPt) t) as [H1|H1].
    + destruct (Qlt_le_dec t (time lastPt)) as [H2|H2].
      * destruct (Hmid H1 H2) as (i & p1 & p2 & Hp1 & Hp2 & Hle & Hlt & E).
        exists (value p1
                + (value p2 - value p1)
                  * ((t - time p1) / (time p2 - time p1))).
        split; [exact E|].
        destruct (Nat.le_gt_cases j i) as [Hji|Hji].
        -- pose proof (Hmono j i p p1 Hji Hp Hp1).
           assert (i = j) as -> by (apply (Huniq i p1 Hp1); lra).
           assert (p1 = p) as -> by congruence.
           assert (t - time p == 0) as -> by lra.
           unfold Qdiv. ring.
        -- pose proof (Hmono (S i) j p2 p ltac:(lia) Hp2 Hp). lra.
      * exists (value lastPt). split; [now apply Hright|].
        pose proof (Hmono j (Init.Nat.pred (length points)) p lastPt
                      ltac:(lia) Hp Hl).
        assert (Init.Nat.pred (length points) = j) as Hk
          by (apply (Huniq _ lastPt Hl); lra).
        rewrite Hk in Hl. assert (lastPt = p) as -> by congruence.
        reflexivity.
    + exists (value firstPt). split; [now apply Hleft|].
      pose proof (Hmono 0%nat j firstPt p ltac:(lia) Hf Hp).
      assert (0%nat = j) as Hk by (apply (Huniq _ firstPt Hf); lra).
      rewrite Hk in Hf. assert (firstPt = p) as -> by congruence.
      reflexivity.
Qed.

Lemma interpolateAtTime_ascending_witness :
  interpolateAtTime [mkPoint 0 0; mkPoint 10 10] 12 = Some 10.
Proof.
  apply (interpolateAtTime_ascending
           [mkPoint 0 0; mkPoint 10 10] (mkPoint 0 0) (mkPoint 10 10) 12).
  - repeat constructor; cbn; lra.
  - reflexivity.
  - reflexivity.
  - cbn; lra.
  - cbn; lra.
Defined.

(** C1 as stated fails on a series with a tie: [[(0, 1), (0, 2)]] is
    ascending and the query time [0] is at least the time of the last
    sample, which is also a sample whose time is exactly [0]; the result is
    the first value [1], not the value [2] of that sample. *)
Lemma interpolateAtTime_ties_counterexample :
  let points := [mkPoint 0 1; mkPoint 0 2] in
  let lastPt := mkPoint 0 2 in
  ascending points
  /\ last points = Some lastPt
  /\ time lastPt <= 0
  /\ time lastPt == 0
  /\ interpolateAtTime points 0 = Some 1
  /\ ~ 1 == value lastPt.
Proof.
  cbn zeta. repeat split.
  - repeat constructor; cbn; lra.
  - cbn; lra.
  - cbn; lra.
Qed.

(** The linearity test of the spec: between [(0, 0)] and [(10, 10)] the
    value at [5] is [5]. *)
Example interpolateAtTime_linear :
  exists v : Q,
    interpolateAtTime [mkPoint 0 0; mkPoint 10 10] 5 = Some v /\ v == 5.
Proof. eexists. split; [reflexivity | reflexivity]. Qed.

(** ** The windowed view: [bisectTime] and [contextData] *)

Lemma mid_within (lo hi : nat) :
  (lo < hi)%nat -> (lo <= (lo + hi) / 2 < hi)%nat.
Proof.
  intros H. pose proof (Nat.div_mod_eq (lo + hi) 2) as E.
  pose proof (Nat.mod_upper_bound (lo + hi) 2). lia.
Qed.

(** On an ascending array the bisection returns the left insertion point
    of [x]: the samples before it are earlier than [x], the samples from
    it on are not. *)
Lemma bisect_loop_spec (a : list LiveLinePoint) (x : Q) :
  ascending a ->
  forall (fuel lo hi : nat),
    (hi - lo <= fuel)%nat -> (lo <= hi)%nat -> (hi <= length a)%nat ->
    (forall k p, (k < lo)%nat -> a !! k = Some p -> time p < x) ->
    (forall k p, (hi <= k)%nat -> a !! k = Some p -> x <= time p) ->
    let r := bisect_loop fuel a x lo hi in
    (lo <= r <= hi)%nat
    /\ (forall k p, (k < r)%nat -> a !! k = Some p -> time p < x)
    /\ (forall k p, (r <= k)%nat -> a !! k = Some p -> x <= time p).
Proof.
  intros Hasc. pose proof (ascending_lookup a Hasc) as Hmono.
  induction fuel as [|fuel IH]; intros lo hi Hfuel Hle Hlen Hlo Hhi.
  - cbn. assert (hi = lo) as -> by lia. auto with lia.
  - cbn [bisect_loop]. destruct (lo <? hi)%nat eqn:Hlt.
    + apply Nat.ltb_lt in Hlt. pose proof (mid_within lo hi Hlt) as Hmid.
      set (mid := ((lo + hi) / 2)%nat) in *.
      destruct (lookup_lt_is_Some_2 a mid ltac:(lia)) as [d Hd].
      rewrite Hd. destruct (Qltb (time d) x) eqn:Hcmp; qbool.
      * destruct (IH (mid + 1)%nat hi ltac:(lia) ltac:(lia) Hlen)
          as (Hr & Hbelow & Habove); auto.
        { intros k p Hk Hp.
          pose proof (Hmono k mid p d ltac:(lia) Hp Hd). lra. }
        split; [lia | auto].
      * destruct (IH lo mid ltac:(lia) ltac:(lia) ltac:(lia))
          as (Hr & Hbelow & Habove); auto.
        { intros k p Hk Hp.
          pose proof (Hmono mid k d p ltac:(lia) Hd Hp). lra. }
        split; [lia | auto].
    + apply Nat.ltb_ge in Hlt. assert (hi = lo) as -> by lia.
      auto with lia.
Qed.

Lemma bisectTime_spec (a : list LiveLinePoint) (x : Q) :
  ascending a ->
  let r := bisectTime a x 0 in
  (r <= length a)%nat
  /\ (forall k p, (k < r)%nat -> a !! k = Some p -> time p < x)
  /\ (forall k p, (r <= k)%nat -> a !! k = Some p -> x <= time p).
Proof.
  intros Hasc. unfold bisectTime.
  destruct (bisect_loop_spec a x Hasc (length a - 0) 0 (length a))
    as (Hr & Hbelow & Habove); try lia.
  - intros k p Hk Hp. apply lookup_lt_Some in Hp. lia.
  - auto with lia.
Qed.

Lemma Qtruncate_inject_Z (z : Z) : Qtruncate (inject_Z z) = z.
Proof.
  unfold Qtruncate. destruct (Qltb _ _);
    [apply Qceiling_Z | apply Qfloor_Z].
Qed.

Lemma Qtruncate_mono (x y : Q) :
  x <= y -> (Qtruncate x <= Qtruncate y)%Z.
Proof.
  intros H. unfold Qtruncate.
  destruct (Qltb x 0) eqn:Hx, (Qltb y 0) eqn:Hy; qbool.
  - now apply Qceiling_resp_le.
  - pose proof (Qceiling_resp_le x 0 ltac:(lra)) as H1.
    pose proof (Qfloor_resp_le 0 y Hy) as H2.
    change (Qceiling 0) with 0%Z in H1. change (Qfloor 0) with 0%Z in H2.
    lia.
  - lra.
  - now apply Qfloor_resp_le.
Qed.

Lemma StronglySorted_map_mono {A B : Type}
    (R : A -> A -> Prop) (R' : B -> B -> Prop) (f : A -> B) (l : list A) :
  (forall x y, R x y -> R' (f x) (f y)) ->
  StronglySorted R l -> StronglySorted R' (map f l).
Proof.
  intros Hf. induction 1 as [|a l Hl IH Ha]; cbn; constructor; auto.
  rewrite Forall_forall in Ha. rewrite Forall_forall. intros y Hy.
  apply list_elem_of_In, in_map_iff in Hy. destruct Hy as (z & <- & Hz).
  apply Hf, Ha, list_elem_of_In, Hz.
Qed.

Lemma ascending_drop (data : list LiveLinePoint) (n : nat) :
  StronglySorted (fun p q => time p <= time q) data ->
  StronglySorted (fun p q => time p <= time q) (drop n data).
Proof.
  intros H. rewrite <- (take_drop n data) in H.
  now apply StronglySorted_app_1_r in H.
Qed.

Lemma toRecord_mono (p q : LiveLinePoint) :
  time p <= time q -> by_date (toRecord p) (toRecord q).
Proof.
  intros H. unfold by_date. cbn. apply Qtruncate_mono. lra.
Qed.

Lemma StronglySorted_filter {A : Type}
    (R : A -> A -> Prop) (f : A -> bool) (l : list A) :
  StronglySorted R l -> StronglySorted R (List.filter f l).
Proof.
  induction 1 as [|a l Hl IH Ha]; cbn; [constructor|].
  destruct (f a); [|exact IH]. constructor; [exact IH|].
  rewrite Forall_forall in Ha. rewrite Forall_forall. intros x Hx.
  apply list_elem_of_In, filter_In in Hx as [Hx _].
  apply Ha, list_elem_of_In, Hx.
Qed.

(** The series of the crosshair ends with the tip, holds every point of
    the window, and is ascending whenever no sample is later than the
    tip. *)
Lemma hoverSeries_windowed
    (data : list LiveLinePoint) (frame : AnimFrame) (windowMs : Q) :
  ascending data ->
  let windowStart := (inject_Z (now frame) - windowMs) / 1000 in
  let series := hoverSeries data frame windowMs in
  ((forall p, p ∈ data -> time p * 1000 <= inject_Z (now frame)) ->
   ascending series)
  /\ last series
     = Some {| time := inject_Z (now frame) / 1000;
               value := displayValue frame |}
  /\ (forall p : LiveLinePoint,
         p ∈ data -> windowStart <= time p -> p ∈ series).
Proof.
  intros Hasc windowStart series. subst series. unfold hoverSeries.
  fold windowStart. split; [|split].
  - intros Hnow. apply StronglySorted_Sorted, StronglySorted_app_2.
    + intros x1 x2 Hx1 Hx2. apply list_elem_of_singleton in Hx2. subst x2.
      apply list_elem_of_In, filter_In in Hx1 as [Hx1 _].
      apply list_elem_of_In, Hnow in Hx1.
      change (time x1 <= inject_Z (now frame) / 1000).
      apply Qle_shift_div_l; [reflexivity | exact Hx1].
    + apply StronglySorted_filter, Sorted.Sorted_StronglySorted; auto.
      intros x y z. apply Qle_trans.
    + repeat constructor.
  - apply last_snoc.
  - intros p Hp Hge. apply elem_of_app. left.
    apply list_elem_of_In, filter_In. split; [now apply list_elem_of_In|].
    now apply Qle_bool_iff.
Qed.

(** C8, amended. On an ascending series the context data end with the
    virtual tip [{ date: now, value: displayValue }], keep the point just
    before the start of the window and every point inside it, and are
    ascending by date whenever no sample is later than the tip; the
    series of the crosshair ends with the tip, holds every point inside
    the window and is ascending on the same condition. *)
Theorem contextData_windowed
    (data : list LiveLinePoint) (frame : AnimFrame) (windowMs : Q) :
  ascending data ->
  let windowStart := (inject_Z (now frame) - windowMs) / 1000 in
  let records := contextData data frame windowMs in
  let series := hoverSeries data frame windowMs in
  ((forall p, p ∈ data -> time p * 1000 <= inject_Z (now frame)) ->
   Sorted by_date records)
  /\ last records
     = Some {| date := now frame; dataValue := displayValue frame |}
  /\ (forall (i : nat) (p : LiveLinePoint),
         data !! i = Some p -> time p < windowStart ->
         (forall q, data !! S i = Some q -> windowStart <= time q) ->
         toRecord p ∈ records)
  /\ (forall p : LiveLinePoint,
         p ∈ data -> windowStart <= time p -> toRecord p ∈ records)
  /\ ((forall p, p ∈ data -> time p * 1000 <= inject_Z (now frame)) ->
      ascending series)
  /\ last series
     = Some {| time := inject_Z (now frame) / 1000;
               value := displayValue frame |}
  /\ (forall p : LiveLinePoint,
         p ∈ data -> windowStart <= time p -> p ∈ series).
Proof.
  intros Hasc windowStart records series.
  cut ((((forall p, p ∈ data -> time p * 1000 <= inject_Z (now frame)) ->
         Sorted by_date records)
        /\ last records
           = Some {| date := now frame; dataValue := displayValue frame |}
        /\ (forall (i : nat) (p : LiveLinePoint),
               data !! i = Some p -> time p < windowStart ->
               (forall q, data !! S i = Some q -> windowStart <= time q) ->
               toRecord p ∈ records)
        /\ (forall p : LiveLinePoint,
               p ∈ data -> windowStart <= time p -> toRecord p ∈ records))).
  { intros (H1 & H2 & H3 & H4).
    destruct (hoverSeries_windowed data frame windowMs Hasc)
      as (H5 & H6 & H7).
    repeat (split; [assumption|]). assumption. }
  destruct (bisectTime_spec data windowStart Hasc) as (Hr & Hbelow & Habove).
  subst records. unfold contextData. fold windowStart.
  set (r := bisectTime data windowStart 0) in *.
  set (startIdx := if (0 <? r)%nat then (r - 1)%nat else r).
  assert (startIdx <= r)%nat as Hstart
    by (subst startIdx; destruct (0 <? r)%nat; lia).
  unfold Date. rewrite Qtruncate_inject_Z.
  assert (forall k p,
             (startIdx <= k)%nat -> data !! k = Some p ->
             toRecord p ∈ map toRecord (drop startIdx data)) as Hkeep.
  { intros k p Hk Hp. apply list_elem_of_In, in_map, list_elem_of_In.
    apply list_elem_of_lookup. exists (k - startIdx)%nat.
    rewrite lookup_drop. now replace (startIdx + (k - startIdx))%nat with k
      by lia. }
  split; [|split; [|split]].
  - intros Hnow. apply StronglySorted_Sorted, StronglySorted_app_2.
    + intros x1 x2 Hx1 Hx2. apply list_elem_of_singleton in Hx2. subst x2.
      apply list_elem_of_In, in_map_iff in Hx1.
      destruct Hx1 as (p & <- & Hp). apply list_elem_of_In in Hp.
      unfold by_date. cbn.
      rewrite <- (Qtruncate_inject_Z (now frame)).
      apply Qtruncate_mono, Hnow.
      exact (subseteq_drop startIdx data p Hp).
    + apply StronglySorted_map_mono with (R := fun p q => time p <= time q).
      * exact toRecord_mono.
      * apply ascending_drop, Sorted.Sorted_StronglySorted; auto.
        intros x y z. apply Qle_trans.
    + repeat constructor.
  - apply last_snoc.
  - intros i p Hp Hlt Hnext. apply elem_of_app. left.
    apply (Hkeep i p); auto.
    destruct (Nat.le_gt_cases r i) as [Hri|Hri].
    { pose proof (Habove i p Hri Hp). lra. }
    destruct (Nat.le_gt_cases r (S i)) as [Hrs|Hrs].
    { subst startIdx. destruct (0 <? r)%nat eqn:E;
        [lia | apply Nat.ltb_ge in E; lia]. }
    destruct (lookup_lt_is_Some_2 data (S i) ltac:(lia)) as [q Hq].
    pose proof (Hbelow (S i) q Hrs Hq). pose proof (Hnext q Hq). lra.
  - intros p Hp Hge. apply elem_of_app. left.
    apply list_elem_of_lookup in Hp. destruct Hp as [k Hk].
    apply (Hkeep k p); auto.
    destruct (Nat.le_gt_cases r k) as [Hrk|Hrk]; [lia|].
    pose proof (Hbelow k p Hrk Hk). lra.
Qed.

Lemma contextData_windowed_witness :
  let data := [mkPoint 0 1; mkPoint 10 2; mkPoint 20 3] in
  let frame := mkFrame 35000 0 100 4 in
  Sorted by_date (contextData data frame 30000)
  /\ last (contextData data frame 30000) = Some (mkRecord 35000 4)
  /\ toRecord (mkPoint 0 1) ∈ contextData data frame 30000.
Proof.
  cbn zeta.
  destruct (contextData_windowed
              [mkPoint 0 1; mkPoint 10 2; mkPoint 20 3]
              (mkFrame 35000 0 100 4) 30000) as (Hs & Hl & Hp & _).
  - repeat constructor; cbn; lra.
  - split; [|split].
    + apply Hs. intros p Hp'. cbn.
      repeat (apply elem_of_cons in Hp'; destruct Hp' as [->|Hp']);
        [now apply Qle_bool_iff .. | inversion Hp'].
    + exact Hl.
    + apply (Hp 0%nat); [reflexivity | now apply Qltb_iff |].
      intros q Hq. injection Hq as <-. now apply Qle_bool_iff.
Defined.

(** C8 as stated fails when a sample is later than the tip, as when the
    chart is paused and the stream goes on: the tip is appended after a
    later sample. *)
Lemma contextData_later_sample_counterexample :
  let data := [mkPoint 5 1] in
  let frame := mkFrame 3000 0 100 4 in
  ascending data
  /\ contextData data frame 30000 = [mkRecord 5000 1; mkRecord 3000 4]
  /\ ~ Sorted by_date (contextData data frame 30000).
Proof.
  cbn zeta. split; [|split].
  - repeat constructor.
  - reflexivity.
  - intros H. change (contextData _ _ _)
      with [mkRecord 5000 1; mkRecord 3000 4] in H.
    inversion H as [|a l _ Hhd]; subst. inversion Hhd as [|b l' Hab]; subst.
    unfold by_date in Hab. cbn in Hab. lia.
Qed.

(** The series of the crosshair does not keep the point before the window:
    with samples at 0 s, 10 s and 20 s and a window that starts at 5 s, the
    context data begin with the sample at 0 s, the crosshair series begins
    with the sample at 10 s, and at 7 s the crosshair reads the clamped
    value 2. *)
Lemma hoverSeries_drops_preceding :
  let data := [mkPoint 0 1; mkPoint 10 2; mkPoint 20 3] in
  let frame := mkFrame 35000 0 100 4 in
  head (contextData data frame 30000) = Some (toRecord (mkPoint 0 1))
  /\ head (hoverSeries data frame 30000) = Some (mkPoint 10 2)
  /\ interpolateAtTime (hoverSeries data frame 30000) 7 = Some 2.
Proof. cbn zeta. repeat split. Qed.

(** ** The interval picker: [pickNiceInterval] *)

(** The degenerate fallback: without a positive value range and a
    positive pixel extent the interval is [1]. *)
Lemma pickNiceInterval_degenerate
    (fuel : nat) (valRange chartHeight minGap prevInterval : Q) :
  valRange <= 0 \/ chartHeight <= 0 ->
  pickNiceInterval fuel valRange chartHeight minGap prevInterval
  = Some (Fin 1).
Proof.
  intros [H|H]; apply Qle_bool_iff in H; unfold pickNiceInterval;
    rewrite H; [reflexivity | now rewrite orb_true_r].
Qed.

Section Shrink.

Variables (divs : list Q) (span0 pxPerUnit minGap : Q).
Hypothesis Hdivs : forall i : nat, 2 <= divisor divs i.
Hypothesis Hspan0 : 0 < span0.
Hypothesis HpxPerUnit : 0 < pxPerUnit.
Hypothesis HminGap : 0 < minGap.

Lemma cycle_span_pos (n : nat) : 0 < cycle_span divs span0 n.
Proof.
  induction n as [|n IH]; cbn; [exact Hspan0|].
  apply Qlt_shift_div_l; [specialize (Hdivs n); lra | lra].
Qed.

Lemma pow2_succ (n : nat) : 2 ^ Z.of_nat (S n) == 2 ^ Z.of_nat n * 2.
Proof.
  rewrite Nat2Z.inj_succ. unfold Z.succ. rewrite Qpower_plus by lra.
  reflexivity.
Qed.

(** Every division at least halves the span. *)
Lemma cycle_span_bound (n : nat) :
  cycle_span divs span0 n * 2 ^ Z.of_nat n <= span0.
Proof.
  induction n as [|n IH].
  - change (span0 * 1 <= span0). lra.
  - rewrite pow2_succ. cbn [cycle_span].
    pose proof (cycle_span_pos n) as Hpos. specialize (Hdivs n).
    assert (0 < 2 ^ Z.of_nat n) as Hpow by (apply Qpower_0_lt; lra).
    set (c := cycle_span divs span0 n) in *.
    set (d := divisor divs n) in *. set (w := 2 ^ Z.of_nat n) in *.
    assert (c / d * (w * 2) == (c * w) * (2 / d)) as ->
      by (field; lra).
    assert (2 / d <= 1) by (apply Qle_shift_div_r; lra).
    assert (0 < c * w) by (apply Qmult_lt_0_compat; lra).
    nra.
Qed.

(** The divisions bring the pixel spacing below any positive gap. *)
Lemma cycle_stop_exists :
  exists N : nat, cycle_span divs span0 (S N) * pxPerUnit < minGap.
Proof.
  destruct (Qarchimedean_power2_pos (span0 * pxPerUnit / minGap))
    as [p Hp].
  exists (Nat.pred (Pos.to_nat p)).
  pose proof (Pos2Nat.is_pos p) as Hpos.
  replace (S (Nat.pred (Pos.to_nat p))) with (Pos.to_nat p) by lia.
  pose proof (cycle_span_bound (Pos.to_nat p)) as Hb.
  pose proof (cycle_span_pos (Pos.to_nat p)) as Hc.
  rewrite positive_nat_Z in Hb.
  assert (Z.pos (2 ^ p) # 1 == 2 ^ Z.pos p) as E.
  { rewrite Pos2Z.inj_pow. change (Z.pos 2 ^ Z.pos p # 1)
      with (inject_Z (2 ^ Z.pos p)).
    rewrite Zpower_Qpower by lia. reflexivity. }
  rewrite E in Hp.
  set (c := cycle_span divs span0 (Pos.to_nat p)) in *.
  set (w := 2 ^ Z.pos p) in *.
  assert (0 < w) as Hw by (apply Qpower_0_lt; lra).
  assert (span0 * pxPerUnit < w * minGap) as Hp'.
  { apply (Qmult_lt_r _ _ minGap HminGap) in Hp.
    assert (span0 * pxPerUnit / minGap * minGap == span0 * pxPerUnit) as E'
      by (field; lra).
    now rewrite E' in Hp. }
  apply (Qmult_lt_r _ _ w Hw).
  assert (c * pxPerUnit * w == c * w * pxPerUnit) as -> by ring.
  apply Qle_lt_trans with (span0 * pxPerUnit); [|lra].
  apply Qmult_le_compat_r; lra.
Qed.

(** The loop started after [i] divisions stops, with fuel to spare, at the
    first index from [i] on whose next division would bring the spacing
    below [minGap]. *)
Lemma shrink_loop_run :
  forall (k i fuel : nat),
    cycle_span divs span0 (S (i + k)) * pxPerUnit < minGap ->
    (k < fuel)%nat ->
    exists n : nat,
      (i <= n)%nat
      /\ shrink_loop fuel divs pxPerUnit minGap (cycle_span divs span0 i) i
                     (divisor divs i)
         = Some (cycle_span divs span0 n)
      /\ (forall m : nat, (i <= m < n)%nat ->
                          minGap <= cycle_span divs span0 (S m) * pxPerUnit)
      /\ cycle_span divs span0 (S n) * pxPerUnit < minGap.
Proof.
  induction k as [|k IH]; intros i fuel Hstop Hfuel;
    (destruct fuel as [|fuel]; [lia|]); cbn [shrink_loop];
    change (cycle_span divs span0 i / divisor divs i)
      with (cycle_span divs span0 (S i));
    destruct (Qle_bool minGap (cycle_span divs span0 (S i) * pxPerUnit))
      eqn:Htest; qbool.
  - rewrite Nat.add_0_r in Hstop. lra.
  - exists i. repeat split; auto with lia.
  - destruct (IH (S i) fuel) as (n & Hn & Hrun & Hbefore & Hafter).
    + now replace (S i + k)%nat with (i + S k)%nat by lia.
    + lia.
    + exists n. repeat split; auto with lia.
      intros m Hm. destruct (Nat.eq_dec m i) as [->|Hne]; [exact Htest|].
      apply Hbefore. lia.
  - exists i. repeat split; auto with lia.
Qed.

(** The loop computes the candidate of its cycle. *)
Lemma shrink_loop_candidate :
  exists (fuel0 : nat) (span : Q),
    candidate divs span0 pxPerUnit minGap span
    /\ forall fuel : nat,
        (fuel0 <= fuel)%nat ->
        shrink_loop fuel divs pxPerUnit minGap span0 0 (divisor divs 0)
        = Some span.
Proof.
  destruct cycle_stop_exists as [N HN].
  destruct (shrink_loop_run N 0 (S N) HN ltac:(lia))
    as (n & _ & _ & Hbefore & Hafter).
  exists (S N), (cycle_span divs span0 n). split.
  - exists n. repeat split; auto. intros m Hm. apply Hbefore. lia.
  - intros fuel Hfuel.
    destruct (shrink_loop_run N 0 fuel HN ltac:(lia))
      as (n' & _ & Hrun & Hbefore' & Hafter').
    change (cycle_span divs span0 0) with span0 in Hrun. rewrite Hrun.
    f_equal. f_equal.
    destruct (Nat.lt_trichotomy n n') as [Hlt|[->|Hlt]]; [|reflexivity|].
    + pose proof (Hbefore' n ltac:(lia)). lra.
    + pose proof (Hbefore n' ltac:(lia)). lra.
Qed.

End Shrink.

(** *** The exact logarithms *)

Lemma floor_log10_from_spec (q : Q) :
  forall (fuel : nat) (k : Z),
    q < 10 ^ (k + 1) -> 10 ^ (k - Z.of_nat fuel) <= q ->
    10 ^ floor_log10_from fuel k q <= q
    /\ q < 10 ^ (floor_log10_from fuel k q + 1).
Proof.
  induction fuel as [|fuel IH]; intros k Hhi Hlo.
  - cbn [floor_log10_from]. rewrite Z.sub_0_r in Hlo. auto.
  - cbn [floor_log10_from].
    destruct (Qle_bool (10 ^ k) q) eqn:Htest; qbool; [auto|].
    apply IH.
    + now replace (k - 1 + 1)%Z with k by lia.
    + now replace (k - 1 - Z.of_nat fuel)%Z with (k - Z.of_nat (S fuel))%Z
        by lia.
Qed.

Lemma pow10_above (n : Z) :
  (0 < n)%Z -> inject_Z n < 10 ^ (Z.log2 n + 1).
Proof.
  intros Hn. pose proof (Z.log2_spec n Hn) as [_ Hlt].
  pose proof (Z.log2_nonneg n) as Hnn.
  rewrite <- Z.add_1_r in Hlt.
  assert (2 ^ (Z.log2 n + 1) <= 10 ^ (Z.log2 n + 1))%Z as Hle
    by (apply Z.pow_le_mono_l; lia).
  change 10 with (inject_Z 10). rewrite <- Zpower_Qpower by lia.
  rewrite <- Zlt_Qlt. lia.
Qed.

(** [floor_log10 q] is the integer part of the decimal logarithm. *)
Lemma floor_log10_spec (q : Q) :
  0 < q -> 10 ^ floor_log10 q <= q /\ q < 10 ^ (floor_log10 q + 1).
Proof.
  intros Hq. unfold floor_log10.
  destruct q as [n d]. cbn [Qnum Qden].
  assert (0 < n)%Z as Hn by (unfold Qlt in Hq; cbn in Hq; lia).
  pose proof (Z.log2_nonneg n). pose proof (Z.log2_nonneg (Z.pos d)).
  set (hi := (Z.log2 n + 1)%Z). set (m := (Z.log2 (Z.pos d) + 1)%Z).
  apply floor_log10_from_spec.
  - apply Qle_lt_trans with (inject_Z n).
    + unfold Qle, inject_Z. cbn. nia.
    + apply Qlt_trans with (10 ^ hi); [now apply pow10_above|].
      apply Qpower_lt_compat_l; [lia | lra].
  - rewrite Z2Nat.id by lia.
    replace (hi - (hi - - m))%Z with (- m)%Z by lia.
    rewrite Qpower_opp.
    pose proof (pow10_above (Z.pos d) ltac:(lia)) as Hd. fold m in Hd.
    change 10 with (inject_Z 10) in *.
    rewrite <- Zpower_Qpower in * by lia.
    rewrite <- Zlt_Qlt in Hd.
    apply Qle_shift_inv_r.
    + rewrite <- (Zlt_Qlt 0). lia.
    + unfold Qle, Qmult, inject_Z. cbn. nia.
Qed.

(** [ceil_log10 q] is the decimal logarithm rounded up. *)
Lemma ceil_log10_spec (q : Q) :
  0 < q -> 10 ^ (ceil_log10 q - 1) < q /\ q <= 10 ^ ceil_log10 q.
Proof.
  intros Hq. destruct (floor_log10_spec q Hq) as [Hlo Hhi].
  unfold ceil_log10. destruct (Qeq_bool _ _) eqn:E; qbool.
  - split; [|lra].
    apply Qlt_le_trans with (10 ^ floor_log10 q); [|lra].
    apply Qpower_lt_compat_l; [lia | lra].
  - replace (floor_log10 q + 1 - 1)%Z with (floor_log10 q) by lia.
    split; [|lra]. destruct (Qle_lt_or_eq _ _ Hlo); [auto | contradiction].
Qed.

(** *** The search *)

Lemma divisor_ge_2 (divs : list Q) :
  Forall (fun d => 2 <= d) divs -> forall i : nat, 2 <= divisor divs i.
Proof.
  intros H i. unfold divisor.
  destruct (divs !! (i mod 3)%nat) as [d|] eqn:E; cbn; [|lra].
  rewrite Forall_lookup in H. eapply H, E.
Qed.

Lemma divisorSets_ge_2 :
  Forall (Forall (fun d => 2 <= d)) divisorSets.
Proof. repeat constructor; now apply Qle_bool_iff. Qed.


(** ** The momentum classifier: [detectMomentum] *)



(** A lookback below one leaves the window empty: the accumulators stay
    at their sentinels, the range is [-Infinity], and so is the
    threshold, which every finite [delta] exceeds. *)
Example detectMomentum_empty_window :
  detectMomentum [1; 1; 1; 1; 1] 0 = up.
Proof. reflexivity. Qed.

(** ** The grid ticks: [niceGridTicks] *)

Lemma Qsign_pos (q : Q) : 0 < q -> Qsign q = Gt.
Proof. intros H. now apply Qgt_alt. Qed.

Lemma Qsign_neg (q : Q) : q < 0 -> Qsign q = Lt.
Proof. intros H. now apply Qlt_alt. Qed.

Lemma Qdiv_pos_neg (a b : Q) : 0 < a -> b < 0 -> a / b < 0.
Proof.
  intros Ha Hb.
  assert (0 < a / (- b)) by (apply Qlt_shift_div_l; lra).
  assert (a / b == - (a / (- b))) as -> by (field; lra).
  lra.
Qed.

(** The ticks of the domain [[0, 100]] for five ticks: the step is 20. *)
Example niceGridTicks_0_100_5 :
  niceGridTicks 10 0 100 5
  = Some [Fin 0; Fin 20; Fin 40; Fin 60; Fin 80; Fin 100].
Proof. reflexivity. Qed.

(** * Further properties *)

(** ** The target range of a non-empty series *)

Lemma is_min_cons (a v : Q) (l : list Q) :
  is_min a l -> is_min (if Qltb v a then v else a) (v :: l).
Proof.
  intros [Ha Hla]. destruct (Qltb v a) eqn:E; qbool; split.
  - apply list_elem_of_here.
  - constructor; [lra|]. eapply Forall_impl; [exact Hla|]. cbn.
    intros x Hx. lra.
  - now apply list_elem_of_further.
  - constructor; [lra | exact Hla].
Qed.

Lemma is_max_cons (b v : Q) (l : list Q) :
  is_max b l -> is_max (if Qltb b v then v else b) (v :: l).
Proof.
  intros [Hb Hlb]. destruct (Qltb b v) eqn:E; qbool; split.
  - apply list_elem_of_here.
  - constructor; [lra|]. eapply Forall_impl; [exact Hlb|]. cbn.
    intros x Hx. lra.
  - now apply list_elem_of_further.
  - constructor; [lra | exact Hlb].
Qed.

Lemma range_fold_values (l : list LiveLinePoint) (acc : num * num) :
  fold_left range_step l acc = fold_left minmax_step (map value l) acc.
Proof.
  revert acc. induction l as [|x l IH]; intros acc; [reflexivity | apply IH].
Qed.

(** The value of [computeTargetRange] once its loop has ended on the
    finite pair [(a, b)]. *)
Lemma computeTargetRange_eval
    (data : list LiveLinePoint) (v : Q) (exaggerate : bool) (a b : Q) :
  data <> [] ->
  fold_left range_step data (PInf, NInf) = (Fin a, Fin b) ->
  let mn := if Qltb v a then v else a in
  let mx := if Qltb b v then v else b in
  let scaled := (mx + - mn) * (if exaggerate then 0.03 else 0.15) in
  let pad :=
    if Qeq_bool scaled 0 then (if exaggerate then 0.04 else 10)
    else scaled in
  computeTargetRange data v exaggerate
  = TargetRange.mk (Fin (mn + - pad)) (Fin (mx + pad)).
Proof.
  intros Hne Hfold mn mx scaled pad. unfold computeTargetRange.
  assert ((length data =? 0)%nat = false) as ->
    by (destruct data; [congruence | reflexivity]).
  rewrite Hfold. cbn [lt gt].
  replace (if Qltb v a then Fin v else Fin a) with (Fin mn)
    by (subst mn; now destruct (Qltb v a)).
  replace (if Qltb b v then Fin v else Fin b) with (Fin mx)
    by (subst mx; now destruct (Qltb b v)).
  cbn [sub add neg mul]. unfold or_else, truthy. fold scaled.
  subst pad. now destruct (Qeq_bool scaled 0).
Qed.

(** X1. The target range of a non-empty series is the interval from the
    least to the greatest of its values and the live value, widened on
    each side by 15 % of its width (3 % in the tight mode), or by 10
    (0.04 in the tight mode) when the width is zero. *)
Theorem computeTargetRange_padded
    (data : list LiveLinePoint) (v : Q) (exaggerate : bool) (mn mx : Q) :
  data <> [] ->
  is_min mn (v :: map value data) -> is_max mx (v :: map value data) ->
  exists lo hi : Q,
    computeTargetRange data v exaggerate = TargetRange.mk (Fin lo) (Fin hi)
    /\ (mx - mn == 0 ->
        lo == mn - (if exaggerate then 0.04 else 10)
        /\ hi == mx + (if exaggerate then 0.04 else 10))
    /\ (~ mx - mn == 0 ->
        lo == mn - (mx - mn) * (if exaggerate then 0.03 else 0.15)
        /\ hi == mx + (mx - mn) * (if exaggerate then 0.03 else 0.15)).
Proof.
  intros Hne Hmn Hmx.
  destruct (minmax_fold_sentinel (map value data)) as (a & b & E & Ha & Hb).
  { destruct data; [congruence | discriminate]. }
  rewrite <- range_fold_values in E.
  rewrite (computeTargetRange_eval data v exaggerate a b Hne E).
  pose proof (is_min_unique _ _ _ (is_min_cons a v _ Ha) Hmn) as Emn.
  pose proof (is_max_unique _ _ _ (is_max_cons b v _ Hb) Hmx) as Emx.
  set (mn' := if Qltb v a then v else a) in *.
  set (mx' := if Qltb b v then v else b) in *.
  set (factor := if exaggerate then 0.03 else 0.15).
  assert (0 < factor) as Hf by (subst factor; destruct exaggerate; lra).
  eexists. eexists. split; [reflexivity|].
  destruct (Qeq_bool ((mx' + - mn') * factor) 0) eqn:E0; qbool.
  - assert (mx' + - mn' == 0) as Hz.
    { destruct (Qmult_integral _ _ E0) as [H|H]; [exact H | lra]. }
    split; [intros _; split; lra | intros H; exfalso; apply H; lra].
  - split; [intros H; exfalso; apply E0; rewrite Emx, Emn |].
    + assert (mx + - mn == 0) as -> by lra. ring.
    + intros _. rewrite <- Emn, <- Emx. split; ring.
Qed.

Lemma computeTargetRange_padded_witness :
  exists lo hi : Q,
    computeTargetRange [mkPoint 0 10; mkPoint 1 12; mkPoint 2 11] 13 false
    = TargetRange.mk (Fin lo) (Fin hi)
    /\ lo == 10 - (13 - 10) * 0.15 /\ hi == 13 + (13 - 10) * 0.15.
Proof.
  destruct (computeTargetRange_padded
              [mkPoint 0 10; mkPoint 1 12; mkPoint 2 11] 13 false 10 13)
    as (lo & hi & E & _ & H).
  - discriminate.
  - split; [|repeat constructor; now apply Qle_bool_iff].
    apply list_elem_of_further, list_elem_of_here.
  - split; [|repeat constructor; now apply Qle_bool_iff].
    apply list_elem_of_here.
  - exists lo, hi. split; [exact E|]. apply H.
    intros H0. apply Qeq_bool_iff in H0. discriminate H0.
Defined.

(** ** The frame loop *)

Lemma runTicks_snoc
    (target : TargetRange.t Q) (tv speed : Q) (frame : AnimFrame)
    (readings : list (bool * Z)) (r : bool * Z) :
  runTicks target tv speed frame (readings ++ [r])
  = tick target tv speed (runTicks target tv speed frame readings) r.
Proof. unfold runTicks. now rewrite fold_left_app. Qed.

(** X3. Whatever the pause flags, every tick brings the displayed value
    closer to the target value by the factor [1 - speed]: after [n] ticks
    the distance is [(1 - speed)^n] times the first one. *)
Theorem runTicks_displayValue
    (target : TargetRange.t Q) (tv speed : Q) (frame : AnimFrame)
    (readings : list (bool * Z)) :
  displayValue (runTicks target tv speed frame readings) - tv
  == (1 - speed) ^ Z.of_nat (length readings) * (displayValue frame - tv).
Proof.
  induction readings as [|r readings IH] using rev_ind.
  - change (displayValue frame - tv == 1 * (displayValue frame - tv)).
    ring.
  - rewrite runTicks_snoc, length_app, Nat.add_1_r, Nat2Z.inj_succ.
    unfold Z.succ.
    set (f := runTicks target tv speed frame readings) in *.
    assert (displayValue (tick target tv speed f r) - tv
            == (1 - speed) * (displayValue f - tv)) as -> by (cbn; ring).
    rewrite IH, Qpower_plus' by lia.
    change ((1 - speed) ^ 1) with (1 - speed). ring.
Qed.

(** X6. A paused tick leaves the simulated time alone, an unpaused tick
    sets it to the clock: after a run of ticks the time is the clock of
    the last unpaused tick, and the first time when every tick was
    paused. *)
Theorem runTicks_now
    (target : TargetRange.t Q) (tv speed : Q) (frame : AnimFrame)
    (readings : list (bool * Z)) :
  (Forall (fun r => fst r = true) readings ->
   now (runTicks target tv speed frame readings) = now frame)
  /\ (forall (before after : list (bool * Z)) (clock : Z),
         readings = before ++ (false, clock) :: after ->
         Forall (fun r => fst r = true) after ->
         now (runTicks target tv speed frame readings) = clock).
Proof.
  assert (forall (f : AnimFrame) (rs : list (bool * Z)),
             Forall (fun r => fst r = true) rs ->
             now (runTicks target tv speed f rs) = now f) as Hpaused.
  { intros f rs. revert f.
    induction rs as [|[p c] rs IH]; intros f Hall; [reflexivity|].
    apply Forall_cons in Hall as [Hp Hall]. cbn in Hp. subst p.
    change (runTicks target tv speed f ((true, c) :: rs))
      with (runTicks target tv speed (tick target tv speed f (true, c)) rs).
    now rewrite IH. }
  split; [apply Hpaused|].
  intros before after clock -> Hafter. unfold runTicks.
  rewrite fold_left_app. cbn [fold_left].
  change (fold_left (tick target tv speed) after ?f)
    with (runTicks target tv speed f after).
  now rewrite Hpaused.
Qed.

Lemma runTicks_now_witness :
  now (runTicks (TargetRange.mk 10 90) 60 0.08 (mkFrame 0 0 100 50)
                [(false, 16%Z); (true, 32%Z); (true, 48%Z)]) = 16%Z.
Proof.
  apply (runTicks_now (TargetRange.mk 10 90) 60 0.08 (mkFrame 0 0 100 50)
           [(false, 16%Z); (true, 32%Z); (true, 48%Z)])
    with (before := []) (after := [(true, 32%Z); (true, 48%Z)]).
  - reflexivity.
  - repeat constructor.
Defined.

(** ** The interpolator and the crosshair *)

(** On a non-empty series there is always a value. *)
Lemma interpolateAtTime_some (points : list LiveLinePoint) (t : Q) :
  points <> [] -> exists v : Q, interpolateAtTime points t = Some v.
Proof.
  intros Hne.
  destruct (head points) as [firstPt|] eqn:Hhead;
    [|destruct points; [congruence | discriminate]].
  destruct (last points) as [lastPt|] eqn:Hlast;
    [|apply last_None in Hlast; congruence].
  destruct (interpolateAtTime_cases points firstPt lastPt t Hhead Hlast)
    as (Hleft & Hright & Hmid).
  destruct (Qlt_le_dec (time firstPt) t) as [H1|H1]; [|eauto].
  destruct (Qlt_le_dec t (time lastPt)) as [H2|H2]; [|eauto].
  destruct (Hmid H1 H2) as (i & p1 & p2 & _ & _ & _ & _ & E). eauto.
Qed.

Lemma hoverSeries_nonempty
    (data : list LiveLinePoint) (frame : AnimFrame) (windowMs : Q) :
  hoverSeries data frame windowMs <> [].
Proof.
  unfold hoverSeries. intros H. apply app_eq_nil in H as [_ H].
  discriminate H.
Qed.

(** X10. At the live edge the crosshair reads the displayed value: when
    the cursor time is at or after the time of the frame and after every
    sample, the interpolation over the crosshair series is
    [frame.displayValue]. *)
Theorem hover_value_at_tip
    (data : list LiveLinePoint) (frame : AnimFrame) (windowMs t : Q) :
  inject_Z (now frame) / 1000 <= t ->
  Forall (fun p => time p < t) data ->
  interpolateAtTime (hoverSeries data frame windowMs) t
  = Some (displayValue frame).
Proof.
  intros Hnow Hall.
  set (tip := {| time := inject_Z (now frame) / 1000;
                 value := displayValue frame |}).
  assert (last (hoverSeries data frame windowMs) = Some tip) as Hlast
    by apply last_snoc.
  destruct (head (hoverSeries data frame windowMs)) as [firstPt|] eqn:Hhead;
    [|pose proof (hoverSeries_nonempty data frame windowMs);
      destruct (hoverSeries data frame windowMs); [congruence | discriminate]].
  destruct (interpolateAtTime_cases _ firstPt tip t Hhead Hlast)
    as (Hleft & Hright & _).
  assert (firstPt = tip \/ time firstPt < t) as [->|Hlt].
  { unfold hoverSeries in Hhead. fold tip in Hhead.
    destruct (List.filter _ data) as [|p l] eqn:Hf.
    - left. cbn in Hhead. congruence.
    - right. cbn in Hhead. injection Hhead as <-.
      rewrite Forall_forall in Hall. apply Hall, list_elem_of_In.
      assert (In p (p :: l)) as Hin by now left.
      rewrite <- Hf in Hin. now apply filter_In in Hin. }
  - destruct (Qlt_le_dec (time tip) t) as [H|H].
    + now apply Hright.
    + now apply Hleft.
  - now apply Hright.
Qed.

Lemma hover_value_at_tip_witness :
  interpolateAtTime
    (hoverSeries [mkPoint 10 2; mkPoint 20 3] (mkFrame 35000 0 100 4)
                 30000) 35
  = Some 4.
Proof.
  apply (hover_value_at_tip [mkPoint 10 2; mkPoint 20 3]
           (mkFrame 35000 0 100 4) 30000 35).
  - now apply Qle_bool_iff.
  - repeat constructor; now apply Qltb_iff.
Defined.

(** ** The two windowed slices *)

Lemma filter_drop_split {A : Type} (f : A -> bool) :
  forall (l : list A) (r : nat),
    (forall k x, (k < r)%nat -> l !! k = Some x -> f x = false) ->
    (forall k x, (r <= k)%nat -> l !! k = Some x -> f x = true) ->
    List.filter f l = drop r l.
Proof.
  induction l as [|x l IH]; intros r Hbelow Habove.
  - now destruct r.
  - destruct r as [|r]; cbn [List.filter drop].
    + rewrite (Habove 0%nat x ltac:(lia) eq_refl). f_equal.
      apply (IH 0%nat); [intros k y Hk; lia|].
      intros k y _ Hy. apply (Habove (S k) y); [lia | exact Hy].
    + rewrite (Hbelow 0%nat x ltac:(lia) eq_refl).
      apply IH.
      * intros k y Hk Hy. apply (Hbelow (S k) y); [lia | exact Hy].
      * intros k y Hk Hy. apply (Habove (S k) y); [lia | exact Hy].
Qed.

Lemma Qtruncate_comp (x y : Q) : x == y -> Qtruncate x = Qtruncate y.
Proof.
  intros H. unfold Qtruncate.
  assert (Qltb x 0 = Qltb y 0) as ->.
  { destruct (Qltb y 0) eqn:E; qbool; lra. }
  destruct (Qltb y 0); [now apply Qceiling_comp | now apply Qfloor_comp].
Qed.

(** X11. On an ascending stream the two slices of the chart differ by one
    point at most: the context data are the records of the crosshair
    series, preceded by the record of one sample earlier than the start
    of the window when there is such a sample, and by nothing
    otherwise. *)
Theorem contextData_hoverSeries
    (data : list LiveLinePoint) (frame : AnimFrame) (windowMs : Q) :
  ascending data ->
  let windowStart := (inject_Z (now frame) - windowMs) / 1000 in
  exists pre : list ChartRecord,
    contextData data frame windowMs
    = pre ++ map toRecord (hoverSeries data frame windowMs)
    /\ ((pre = [] /\ Forall (fun p => windowStart <= time p) data)
        \/ exists p : LiveLinePoint,
            pre = [toRecord p] /\ p ∈ data /\ time p < windowStart).
Proof.
  intros Hasc windowStart.
  destruct (bisectTime_spec data windowStart Hasc) as (Hr & Hbelow & Habove).
  unfold contextData, hoverSeries. fold windowStart.
  set (r := bisectTime data windowStart 0) in *.
  rewrite (filter_drop_split _ data r).
  2: { intros k x Hk Hx. apply Qle_bool_false_iff. eauto. }
  2: { intros k x Hk Hx. apply Qle_bool_iff. eauto. }
  rewrite map_app. cbn [map].
  assert (toRecord {| time := inject_Z (now frame) / 1000;
                      value := displayValue frame |}
          = {| date := Date (inject_Z (now frame));
               dataValue := displayValue frame |}) as ->.
  { unfold toRecord, Date. cbn [time value]. f_equal.
    apply Qtruncate_comp. field. }
  destruct r as [|r'] eqn:Er.
  - exists []. split; [reflexivity|]. left. split; [reflexivity|].
    rewrite Forall_forall. intros p Hp.
    apply list_elem_of_lookup in Hp as [k Hk].
    apply (Habove k p); [lia | exact Hk].
  - cbn [Nat.ltb Nat.leb]. replace (S r' - 1)%nat with r' by lia.
    destruct (lookup_lt_is_Some_2 data r' ltac:(lia)) as [p Hp].
    exists [toRecord p]. split.
    + now rewrite (drop_S _ _ _ Hp).
    + right. exists p. repeat split; [|apply (Hbelow r' p); [lia | exact Hp]].
      eapply list_elem_of_lookup_2, Hp.
Qed.

Lemma contextData_hoverSeries_witness :
  let data := [mkPoint 0 1; mkPoint 10 2; mkPoint 20 3] in
  let frame := mkFrame 35000 0 100 4 in
  exists pre : list ChartRecord,
    contextData data frame 30000
    = pre ++ map toRecord (hoverSeries data frame 30000)
    /\ ((pre = []
         /\ Forall (fun p => (inject_Z 35000 - 30000) / 1000 <= time p) data)
        \/ exists p : LiveLinePoint,
            pre = [toRecord p] /\ p ∈ data
            /\ time p < (inject_Z 35000 - 30000) / 1000).
Proof.
  apply (contextData_hoverSeries
           [mkPoint 0 1; mkPoint 10 2; mkPoint 20 3]
           (mkFrame 35000 0 100 4) 30000).
  repeat constructor; now apply Qle_bool_iff.
Defined.

(** ** More on the interval picker *)

Lemma pickNiceInterval_unfold
    (fuel : nat) (valRange chartHeight minGap prevInterval : Q) :
  0 < valRange -> 0 < chartHeight ->
  pickNiceInterval fuel valRange chartHeight minGap prevInterval
  = if keepsInterval valRange chartHeight minGap prevInterval
    then Some (Fin prevInterval)
    else
      best ← fold_left
               (pick_step fuel valRange (chartHeight / valRange) minGap)
               divisorSets (Some PInf);
      Some (if eqb best PInf then Fin (valRange / 5) else best).
Proof.
  intros Hr Hh. unfold pickNiceInterval, keepsInterval.
  assert (Qle_bool valRange 0 = false) as -> by (qbool; lra).
  assert (Qle_bool chartHeight 0 = false) as -> by (qbool; lra).
  reflexivity.
Qed.

(** The three loops of the search and the choice of the smallest span. *)
Lemma pick_search_run (valRange pxPerUnit minGap : Q) :
  0 < valRange -> 0 < pxPerUnit -> 0 < minGap ->
  let span0 := 10 ^ ceil_log10 valRange in
  exists (fuel0 : nat) (c1 c2 c3 best : Q),
    candidate [2; 2.5; 2] span0 pxPerUnit minGap c1
    /\ candidate [2; 2; 2.5] span0 pxPerUnit minGap c2
    /\ candidate [2.5; 2; 2] span0 pxPerUnit minGap c3
    /\ (best = c1 \/ best = c2 \/ best = c3)
    /\ forall fuel : nat,
        (fuel0 <= fuel)%nat ->
        fold_left (pick_step fuel valRange pxPerUnit minGap)
                  divisorSets (Some PInf)
        = Some (Fin best).
Proof.
  intros Hr Hppu Hg span0.
  assert (0 < span0) as Hspan0 by (apply Qpower_0_lt; lra).
  pose proof divisorSets_ge_2 as Hsets. unfold divisorSets in Hsets.
  apply Forall_cons in Hsets as [H1 Hsets].
  apply Forall_cons in Hsets as [H2 Hsets].
  apply Forall_cons in Hsets as [H3 _].
  destruct (shrink_loop_candidate _ span0 pxPerUnit minGap
              (divisor_ge_2 _ H1) Hspan0 Hppu Hg) as (f1 & c1 & Hc1 & Hrun1).
  destruct (shrink_loop_candidate _ span0 pxPerUnit minGap
              (divisor_ge_2 _ H2) Hspan0 Hppu Hg) as (f2 & c2 & Hc2 & Hrun2).
  destruct (shrink_loop_candidate _ span0 pxPerUnit minGap
              (divisor_ge_2 _ H3) Hspan0 Hppu Hg) as (f3 & c3 & Hc3 & Hrun3).
  set (m2 := if Qltb c2 c1 then c2 else c1).
  set (best := if Qltb c3 m2 then c3 else m2).
  exists (Nat.max f1 (Nat.max f2 f3)), c1, c2, c3, best.
  do 3 (split; [assumption|]). split.
  { subst best m2; destruct (Qltb c2 c1), (Qltb c3 _); auto. }
  intros fuel Hfuel.
  unfold divisorSets, pick_step. cbn [fold_left mbind option_bind].
  fold span0. rewrite Hrun1, Hrun2, Hrun3 by lia.
  cbn [mbind option_bind lt]. fold m2.
  replace (if Qltb c2 c1 then Fin c2 else Fin c1) with (Fin m2)
    by (subst m2; now destruct (Qltb c2 c1)).
  cbn [lt]. replace (if Qltb c3 m2 then Fin c3 else Fin m2) with (Fin best)
    by (subst best; now destruct (Qltb c3 m2)).
  reflexivity.
Qed.

Lemma candidate_pos (divs : list Q) (span0 pxPerUnit minGap span : Q) :
  Forall (fun d => 2 <= d) divs -> 0 < span0 ->
  candidate divs span0 pxPerUnit minGap span -> 0 < span.
Proof.
  intros Hdivs Hspan0 (n & -> & _).
  apply cycle_span_pos; [now apply divisor_ge_2 | exact Hspan0].
Qed.

(** Outside the degenerate case the picker returns the previous interval
    when the hysteresis test keeps it, and the span [best] of the search
    otherwise. *)
Lemma pickNiceInterval_run
    (valRange chartHeight minGap : Q) :
  0 < valRange -> 0 < chartHeight -> 0 < minGap ->
  let span0 := 10 ^ ceil_log10 valRange in
  let pxPerUnit := chartHeight / valRange in
  exists (fuel0 : nat) (best : Q),
    0 < best
    /\ (exists divs : list Q,
           divs ∈ divisorSets
           /\ candidate divs span0 pxPerUnit minGap best)
    /\ forall (fuel : nat) (prevInterval : Q),
        (fuel0 <= fuel)%nat ->
        pickNiceInterval fuel valRange chartHeight minGap prevInterval
        = if keepsInterval valRange chartHeight minGap prevInterval
          then Some (Fin prevInterval) else Some (Fin best).
Proof.
  intros Hr Hh Hg span0 pxPerUnit.
  assert (0 < pxPerUnit) as Hppu by (apply Qlt_shift_div_l; lra).
  assert (0 < span0) as Hspan0 by (apply Qpower_0_lt; lra).
  destruct (pick_search_run valRange pxPerUnit minGap Hr Hppu Hg)
    as (fuel0 & c1 & c2 & c3 & best & Hc1 & Hc2 & Hc3 & Hbest & Hrun).
  fold span0 in Hc1, Hc2, Hc3.
  pose proof divisorSets_ge_2 as Hsets. unfold divisorSets in Hsets.
  apply Forall_cons in Hsets as [H1 Hsets].
  apply Forall_cons in Hsets as [H2 Hsets].
  apply Forall_cons in Hsets as [H3 _].
  exists fuel0, best. split; [|split].
  - destruct Hbest as [->|[->| ->]].
    + exact (candidate_pos _ _ _ _ _ H1 Hspan0 Hc1).
    + exact (candidate_pos _ _ _ _ _ H2 Hspan0 Hc2).
    + exact (candidate_pos _ _ _ _ _ H3 Hspan0 Hc3).
  - unfold divisorSets.
    destruct Hbest as [->|[->| ->]]; eexists; (split; [|eassumption]).
    + apply list_elem_of_here.
    + apply list_elem_of_further, list_elem_of_here.
    + do 2 apply list_elem_of_further. apply list_elem_of_here.
  - intros fuel prevInterval Hfuel.
    rewrite (pickNiceInterval_unfold fuel _ _ _ _ Hr Hh).
    fold pxPerUnit. now rewrite (Hrun fuel Hfuel).
Qed.

(** X12. For a positive gap the picker always returns a finite, positive
    interval: 1 in the degenerate case, the positive previous interval
    under the hysteresis, a positive span of the search otherwise. *)
Theorem pickNiceInterval_positive
    (valRange chartHeight minGap prevInterval : Q) :
  0 < minGap ->
  exists (fuel0 : nat) (interval : Q),
    0 < interval
    /\ forall fuel : nat,
        (fuel0 <= fuel)%nat ->
        pickNiceInterval fuel valRange chartHeight minGap prevInterval
        = Some (Fin interval).
Proof.
  intros Hg.
  destruct (Qlt_le_dec 0 valRange) as [Hr|Hr];
    [destruct (Qlt_le_dec 0 chartHeight) as [Hh|Hh]|].
  - destruct (pickNiceInterval_run valRange chartHeight minGap Hr Hh Hg)
      as (fuel0 & best & Hbest & _ & Hrun).
    destruct (keepsInterval valRange chartHeight minGap prevInterval) eqn:E.
    + exists fuel0, prevInterval. split.
      * unfold keepsInterval in E.
        destruct (Qltb 0 prevInterval) eqn:E0; [qbool; lra | discriminate].
      * intros fuel Hfuel. now rewrite Hrun, E.
    + exists fuel0, best. split; [exact Hbest|].
      intros fuel Hfuel. now rewrite Hrun, E.
  - exists 0%nat, 1. split; [reflexivity|]. intros fuel _.
    apply pickNiceInterval_degenerate. now right.
  - exists 0%nat, 1. split; [reflexivity|]. intros fuel _.
    apply pickNiceInterval_degenerate. now left.
Qed.

Lemma pickNiceInterval_positive_witness :
  exists (fuel0 : nat) (interval : Q),
    0 < interval
    /\ forall fuel : nat,
        (fuel0 <= fuel)%nat ->
        pickNiceInterval fuel 100 300 36 0 = Some (Fin interval).
Proof. apply (pickNiceInterval_positive 100 300 36 0). reflexivity. Defined.

(** X13. The picker is stable: the interval it returns, handed back as
    the previous interval with the same range, height and gap, is
    returned again. *)
Theorem pickNiceInterval_stable
    (valRange chartHeight minGap prevInterval : Q) :
  0 < minGap ->
  exists (fuel0 : nat) (interval : Q),
    forall fuel : nat,
      (fuel0 <= fuel)%nat ->
      pickNiceInterval fuel valRange chartHeight minGap prevInterval
      = Some (Fin interval)
      /\ pickNiceInterval fuel valRange chartHeight minGap interval
         = Some (Fin interval).
Proof.
  intros Hg.
  destruct (Qlt_le_dec 0 valRange) as [Hr|Hr];
    [destruct (Qlt_le_dec 0 chartHeight) as [Hh|Hh]|].
  - destruct (pickNiceInterval_run valRange chartHeight minGap Hr Hh Hg)
      as (fuel0 & best & _ & _ & Hrun).
    destruct (keepsInterval valRange chartHeight minGap prevInterval) eqn:E.
    + exists fuel0, prevInterval. intros fuel Hfuel.
      now rewrite Hrun, E.
    + exists fuel0, best. intros fuel Hfuel. rewrite !Hrun, E by exact Hfuel.
      split; [reflexivity|].
      now destruct (keepsInterval valRange chartHeight minGap best).
  - exists 0%nat, 1. intros fuel _.
    split; apply pickNiceInterval_degenerate; now right.
  - exists 0%nat, 1. intros fuel _.
    split; apply pickNiceInterval_degenerate; now left.
Qed.

Lemma pickNiceInterval_stable_witness :
  exists (fuel0 : nat) (interval : Q),
    forall fuel : nat,
      (fuel0 <= fuel)%nat ->
      pickNiceInterval fuel 100 300 36 0 = Some (Fin interval)
      /\ pickNiceInterval fuel 100 300 36 interval = Some (Fin interval).
Proof. apply (pickNiceInterval_stable 100 300 36 0). reflexivity. Defined.

Lemma divisor_le (divs : list Q) :
  Forall (fun d => d <= 2.5) divs -> forall i : nat, divisor divs i <= 2.5.
Proof.
  intros H i. unfold divisor.
  destruct (divs !! (i mod 3)%nat) as [d|] eqn:E; cbn; [|lra].
  rewrite Forall_lookup in H. eapply H, E.
Qed.

Lemma divisorSets_le :
  Forall (Forall (fun d => d <= 2.5)) divisorSets.
Proof. repeat constructor; now apply Qle_bool_iff. Qed.

(** A candidate is less than two and a half gaps wide in pixels: one more
    division, by 2.5 at most, would bring it below the gap. *)
Lemma candidate_spacing_below
    (divs : list Q) (span0 pxPerUnit minGap span : Q) :
  Forall (fun d => 2 <= d) divs -> Forall (fun d => d <= 2.5) divs ->
  0 < span0 -> 0 < pxPerUnit ->
  candidate divs span0 pxPerUnit minGap span ->
  span * pxPerUnit < 2.5 * minGap.
Proof.
  intros Hge Hle Hspan0 Hppu (n & -> & _ & Hstop). cbn [cycle_span] in Hstop.
  pose proof (cycle_span_pos divs span0 (divisor_ge_2 _ Hge) Hspan0 n) as Hc.
  pose proof (divisor_ge_2 _ Hge n) as Hd1.
  pose proof (divisor_le _ Hle n) as Hd2.
  set (c := cycle_span divs span0 n) in *. set (d := divisor divs n) in *.
  assert (c * pxPerUnit == d * (c / d * pxPerUnit)) as -> by (field; lra).
  assert (0 < c / d * pxPerUnit).
  { apply Qmult_lt_0_compat; [|exact Hppu]. apply Qlt_shift_div_l; lra. }
  nra.
Qed.

(** X14. The span of the search is less than two and a half gaps wide in
    pixels. *)
Theorem pickNiceInterval_spacing_below
    (valRange chartHeight minGap prevInterval : Q) :
  0 < valRange -> 0 < chartHeight -> 0 < minGap ->
  keepsInterval valRange chartHeight minGap prevInterval = false ->
  exists (fuel0 : nat) (interval : Q),
    interval * chartHeight / valRange < 2.5 * minGap
    /\ forall fuel : nat,
        (fuel0 <= fuel)%nat ->
        pickNiceInterval fuel valRange chartHeight minGap prevInterval
        = Some (Fin interval).
Proof.
  intros Hr Hh Hg Hkeep.
  destruct (pickNiceInterval_run valRange chartHeight minGap Hr Hh Hg)
    as (fuel0 & best & _ & (divs & Hdivs & Hcand) & Hrun).
  exists fuel0, best. split; [|intros fuel Hfuel; now rewrite Hrun, Hkeep].
  assert (best * chartHeight / valRange == best * (chartHeight / valRange))
    as -> by (unfold Qdiv; ring).
  pose proof divisorSets_ge_2 as Hge. pose proof divisorSets_le as Hle.
  rewrite Forall_forall in Hge, Hle.
  apply (candidate_spacing_below divs (10 ^ ceil_log10 valRange) _ minGap
           best (Hge _ Hdivs) (Hle _ Hdivs));
    [apply Qpower_0_lt; lra | apply Qlt_shift_div_l; lra | exact Hcand].
Qed.

Lemma pickNiceInterval_spacing_below_witness :
  exists (fuel0 : nat) (interval : Q),
    interval * 300 / 100 < 2.5 * 36
    /\ forall fuel : nat,
        (fuel0 <= fuel)%nat ->
        pickNiceInterval fuel 100 300 36 0 = Some (Fin interval).
Proof.
  apply (pickNiceInterval_spacing_below 100 300 36 0);
    reflexivity.
Defined.

Lemma divisor_cycle (a b c : Q) (q : nat) :
  divisor [a; b; c] (q * 3) = a
  /\ divisor [a; b; c] (S (q * 3)) = b
  /\ divisor [a; b; c] (S (S (q * 3))) = c.
Proof.
  unfold divisor. change (S (S (q * 3)))%nat with (2 + q * 3)%nat.
  change (S (q * 3))%nat with (1 + q * 3)%nat.
  rewrite Nat.Div0.mod_mul, !Nat.Div0.mod_add. repeat split.
Qed.

Lemma pow10_succ (n : nat) : 10 ^ Z.of_nat (S n) == 10 ^ Z.of_nat n * 10.
Proof.
  rewrite Nat2Z.inj_succ. unfold Z.succ. rewrite Qpower_plus by lra.
  reflexivity.
Qed.

(** A full turn of a cycle whose divisors multiply to ten divides the
    span by ten. *)
Lemma cycle_span_period (a b c span0 : Q) :
  ~ a == 0 -> ~ b == 0 -> ~ c == 0 -> a * b * c == 10 ->
  forall q : nat,
    cycle_span [a; b; c] span0 (q * 3) == span0 / 10 ^ Z.of_nat q
    /\ cycle_span [a; b; c] span0 (S (q * 3))
       == span0 / 10 ^ Z.of_nat q / a
    /\ cycle_span [a; b; c] span0 (S (S (q * 3)))
       == span0 / 10 ^ Z.of_nat q / (a * b).
Proof.
  intros Ha Hb Hc Habc.
  assert (forall q : nat,
             cycle_span [a; b; c] span0 (q * 3)
             == span0 / 10 ^ Z.of_nat q) as H0.
  { induction q as [|q IH].
    - change (span0 == span0 / 1). field.
    - change (S q * 3)%nat with (S (S (S (q * 3)))).
      cbn [cycle_span].
      destruct (divisor_cycle a b c q) as (-> & -> & ->).
      rewrite IH, pow10_succ.
      assert (0 < 10 ^ Z.of_nat q) by (apply Qpower_0_lt; lra).
      assert (10 ^ Z.of_nat q * 10 == 10 ^ Z.of_nat q * (a * b * c)) as ->
        by (rewrite Habc; reflexivity).
      field. repeat split; lra. }
  intros q. split; [apply H0|].
  cbn [cycle_span]. destruct (divisor_cycle a b c q) as (-> & -> & _).
  rewrite H0. assert (0 < 10 ^ Z.of_nat q) by (apply Qpower_0_lt; lra).
  split; [reflexivity | field; repeat split; lra].
Qed.

Lemma pow10_shift (k : Z) (q : nat) :
  10 ^ (k - Z.of_nat q) == 10 ^ k / 10 ^ Z.of_nat q
  /\ 10 ^ (k - Z.of_nat q - 1) == 10 ^ k / 10 ^ Z.of_nat q / 10.
Proof.
  rewrite !Qpower_minus by lra. split; reflexivity.
Qed.

(** Along each of the three cycles every span reached from a power of
    ten is a nice number. *)
Lemma cycle_span_nice (divs : list Q) (k : Z) (n : nat) :
  divs ∈ divisorSets -> nice (cycle_span divs (10 ^ k) n).
Proof.
  intros Hdivs. set (q := (n / 3)%nat).
  pose proof (Nat.div_mod_eq n 3) as Hn. fold q in Hn.
  pose proof (Nat.mod_upper_bound n 3 ltac:(lia)) as Hr.
  destruct (pow10_shift k q) as [E0 E1].
  assert (0 < 10 ^ Z.of_nat q) as Hq by (apply Qpower_0_lt; lra).
  assert (forall a b c m0 m1 m2 : Q,
             ~ a == 0 -> ~ b == 0 -> ~ c == 0 -> a * b * c == 10 ->
             (m0 = 1 \/ m0 = 2 \/ m0 = 2.5 \/ m0 = 4 \/ m0 = 5) ->
             (m1 = 1 \/ m1 = 2 \/ m1 = 2.5 \/ m1 = 4 \/ m1 = 5) ->
             (m2 = 1 \/ m2 = 2 \/ m2 = 2.5 \/ m2 = 4 \/ m2 = 5) ->
             m0 == 1 -> m1 * a == 10 -> m2 * (a * b) == 10 ->
             nice (cycle_span [a; b; c] (10 ^ k) n)) as Hcase.
  { intros a b c m0 m1 m2 Ha Hb Hc Habc Hm0 Hm1 Hm2 E0' E1' E2'.
    destruct (cycle_span_period a b c (10 ^ k) Ha Hb Hc Habc q)
      as (P0 & P1 & P2).
    destruct (n mod 3)%nat as [|[|[|r]]] eqn:Er; [| | |lia].
    - replace n with (q * 3)%nat by lia.
      exists m0, (k - Z.of_nat q)%Z. split; [exact Hm0|].
      rewrite P0, E0, E0'. ring.
    - replace n with (S (q * 3)) by lia.
      exists m1, (k - Z.of_nat q - 1)%Z. split; [exact Hm1|].
      rewrite P1, E1.
      assert (a == 10 / m1) as -> by (rewrite <- E1'; field; intros Hz;
                                       rewrite Hz in E1'; lra).
      field. repeat split; try lra. intros Hz. rewrite Hz in E1'. lra.
    - replace n with (S (S (q * 3))) by lia.
      exists m2, (k - Z.of_nat q - 1)%Z. split; [exact Hm2|].
      rewrite P2, E1.
      assert (a * b == 10 / m2) as -> by (rewrite <- E2'; field; intros Hz;
                                           rewrite Hz in E2'; lra).
      field. repeat split; try lra. intros Hz. rewrite Hz in E2'. lra. }
  unfold divisorSets in Hdivs.
  apply elem_of_cons in Hdivs as [->|Hdivs];
    [|apply elem_of_cons in Hdivs as [->|Hdivs];
      [|apply list_elem_of_singleton in Hdivs as ->]].
  - apply (Hcase 2 2.5 2 1 5 2); try lra; auto 10; reflexivity.
  - apply (Hcase 2 2 2.5 1 5 2.5); try lra; auto 10; reflexivity.
  - apply (Hcase 2.5 2 2 1 4 2); try lra; auto 10; reflexivity.
Qed.

(** X15. The span of the search is a nice number: 1, 2, 2.5, 4 or 5
    times a power of ten. *)
Theorem pickNiceInterval_nice
    (valRange chartHeight minGap prevInterval : Q) :
  0 < valRange -> 0 < chartHeight -> 0 < minGap ->
  keepsInterval valRange chartHeight minGap prevInterval = false ->
  exists (fuel0 : nat) (interval : Q),
    nice interval
    /\ forall fuel : nat,
        (fuel0 <= fuel)%nat ->
        pickNiceInterval fuel valRange chartHeight minGap prevInterval
        = Some (Fin interval).
Proof.
  intros Hr Hh Hg Hkeep.
  destruct (pickNiceInterval_run valRange chartHeight minGap Hr Hh Hg)
    as (fuel0 & best & _ & (divs & Hdivs & (n & -> & _)) & Hrun).
  exists fuel0, (cycle_span divs (10 ^ ceil_log10 valRange) n).
  split; [exact (cycle_span_nice divs _ n Hdivs)|].
  intros fuel Hfuel. now rewrite Hrun, Hkeep.
Qed.

Lemma pickNiceInterval_nice_witness :
  exists (fuel0 : nat) (interval : Q),
    nice interval
    /\ forall fuel : nat,
        (fuel0 <= fuel)%nat ->
        pickNiceInterval fuel 100 300 36 0 = Some (Fin interval).
Proof.
  apply (pickNiceInterval_nice 100 300 36 0); reflexivity.
Defined.

(** ** The fades of the axis labels: [edgeOpacity], [labelFadeOpacity] *)

(** Splits on the boolean tests of the goal, the innermost first. *)
Ltac no_test t :=
  lazymatch t with
  | context [Qle_bool _ _] => fail
  | context [Qltb _ _] => fail
  | _ => idtac
  end.

Ltac qcase :=
  repeat match goal with
  | |- context [Qle_bool ?a ?b] =>
      no_test a; no_test b; destruct (Qle_bool a b) eqn:?
  | |- context [Qltb ?a ?b] =>
      no_test a; no_test b; destruct (Qltb a b) eqn:?
  end; qbool.

(** X16. The edge opacity is a number of [[0, 1]], and it is the same at
    equal distances from the top and from the bottom. *)
Theorem edgeOpacity_range (y chartHeight : Q) :
  0 <= edgeOpacity y chartHeight <= 1
  /\ edgeOpacity (chartHeight - y) chartHeight == edgeOpacity y chartHeight.
Proof.
  unfold edgeOpacity, Math_min, EDGE_FADE_PX, Qdiv.
  change (/ 28) with (1 # 28). split; qcase; lra.
Qed.

(** X17. The edge opacity is 1 exactly when the label is at least 28
    pixels from both edges, and 0 exactly when it is on an edge or
    outside the chart. *)
Theorem edgeOpacity_ends (y chartHeight : Q) :
  (edgeOpacity y chartHeight == 1
   <-> EDGE_FADE_PX <= y /\ y <= chartHeight - EDGE_FADE_PX)
  /\ (edgeOpacity y chartHeight == 0 <-> y <= 0 \/ chartHeight <= y).
Proof.
  unfold edgeOpacity, Math_min, EDGE_FADE_PX, Qdiv.
  change (/ 28) with (1 # 28).
  split; (split; [qcase; intros H; lra | intros H; qcase; lra]).
Qed.

(** X18. The fade of a time label is a number of [[0, 1]]. *)
Theorem labelFadeOpacity_range
    (labelX : Q) (crosshairX : option Q) (isHovering : bool) :
  0 <= labelFadeOpacity labelX crosshairX isHovering <= 1.
Proof.
  unfold labelFadeOpacity, Math_abs, TICKER_HALF_WIDTH, FADE_BUFFER, Qdiv.
  change (/ 20) with (1 # 20).
  destruct crosshairX as [c|]; [|lra].
  destruct isHovering; cbn [negb]; [|lra]. qcase; lra.
Qed.

(** X19. While hovering, a time label is hidden exactly when it is within
    50 pixels of the crosshair, and fully shown exactly when it is at
    least 70 pixels away. *)
Theorem labelFadeOpacity_ends (labelX crosshairX : Q) :
  (labelFadeOpacity labelX (Some crosshairX) true == 0
   <-> Math_abs (labelX - crosshairX) <= TICKER_HALF_WIDTH)
  /\ (labelFadeOpacity labelX (Some crosshairX) true == 1
      <-> TICKER_HALF_WIDTH + FADE_BUFFER
          <= Math_abs (labelX - crosshairX)).
Proof.
  unfold labelFadeOpacity, Math_abs, TICKER_HALF_WIDTH, FADE_BUFFER, Qdiv.
  change (/ 20) with (1 # 20). cbn [negb].
  split; (split; [qcase; intros H; lra | intros H; qcase; lra]).
Qed.

(** ** The time labels of the X axis *)

(** X20. A single time label divides by zero: whatever the domain, its
    time is [NaN]. *)
Theorem labelTimes_single (startMs endMs : Q) :
  labelTimes startMs endMs 1 = [NaN].
Proof.
  unfold labelTimes, labelStep. cbn [seq map div].
  change (Qeq_bool (inject_Z (Z.of_nat 1) - 1) 0) with true. cbn match.
  now destruct (Qsign (endMs - startMs)).
Qed.

Lemma labelStep_finite (startMs endMs : Q) (numTicks : nat) :
  (2 <= numTicks)%nat ->
  0 < inject_Z (Z.of_nat numTicks) - 1
  /\ labelStep startMs endMs numTicks
     = Fin ((endMs - startMs) / (inject_Z (Z.of_nat numTicks) - 1)).
Proof.
  intros Hn.
  assert (0 < inject_Z (Z.of_nat numTicks) - 1) as Hpos.
  { assert (inject_Z 2 <= inject_Z (Z.of_nat numTicks)) as H
      by (rewrite <- Zle_Qle; lia).
    change (inject_Z 2) with 2 in H. lra. }
  split; [exact Hpos|]. unfold labelStep. cbn [div].
  now assert (Qeq_bool (inject_Z (Z.of_nat numTicks) - 1) 0 = false) as ->
    by (qbool; lra).
Qed.

(** X21. Two or more time labels are spread evenly over the domain: the
    times are finite, the first is the start of the domain, the last is
    its end, and the [i]-th lies [i / (numTicks - 1)] of the way. *)
Theorem labelTimes_even (startMs endMs : Q) (numTicks : nat) :
  (2 <= numTicks)%nat ->
  exists times : list Q,
    labelTimes startMs endMs numTicks = map Fin times
    /\ length times = numTicks
    /\ (forall (i : nat) (t : Q),
           times !! i = Some t ->
           t == startMs
                + (endMs - startMs) * inject_Z (Z.of_nat i)
                  / (inject_Z (Z.of_nat numTicks) - 1))
    /\ (exists t : Q, head times = Some t /\ t == startMs)
    /\ (exists t : Q, last times = Some t /\ t == endMs).
Proof.
  intros Hn.
  destruct (labelStep_finite startMs endMs numTicks Hn) as [Hpos Hstep].
  set (d := inject_Z (Z.of_nat numTicks) - 1) in *.
  set (f := fun i : nat =>
              startMs + inject_Z (Z.of_nat i) * ((endMs - startMs) / d)).
  exists (map f (seq 0 numTicks)).
  assert (forall i : nat,
             f i == startMs + (endMs - startMs) * inject_Z (Z.of_nat i) / d)
    as Hf by (intros i; unfold f; field; lra).
  split; [|split; [|split; [|split]]].
  - unfold labelTimes. rewrite Hstep, map_map. reflexivity.
  - now rewrite length_map, length_seq.
  - intros i t Hi. rewrite list_lookup_fmap in Hi.
    destruct (seq 0 numTicks !! i) as [j|] eqn:Hj; [|discriminate].
    apply lookup_seq in Hj as [-> _]. injection Hi as <-. apply Hf.
  - destruct numTicks as [|n]; [lia|]. exists (f 0%nat).
    split; [reflexivity|]. rewrite Hf. change (inject_Z (Z.of_nat 0)) with 0.
    field. lra.
  - destruct numTicks as [|n]; [lia|]. exists (f n). split.
    + rewrite seq_S, map_app. apply last_snoc.
    + rewrite Hf. subst d. rewrite Nat2Z.inj_succ in Hpos |- *.
      unfold Z.succ in Hpos |- *. rewrite inject_Z_plus in Hpos |- *.
      change (inject_Z 1) with 1 in Hpos |- *. field. lra.
Qed.

Lemma labelTimes_even_witness :
  exists times : list Q,
    labelTimes 0 1000 5 = map Fin times
    /\ length times = 5%nat
    /\ (forall (i : nat) (t : Q),
           times !! i = Some t ->
           t == 0 + (1000 - 0) * inject_Z (Z.of_nat i)
                    / (inject_Z (Z.of_nat 5) - 1))
    /\ (exists t : Q, head times = Some t /\ t == 0)
    /\ (exists t : Q, last times = Some t /\ t == 1000).
Proof.
  apply (labelTimes_even 0 1000 5). lia.
Defined.

(** ** The grid ticks: [niceGridTicks] *)

(** X24. A count of zero or less gives no tick: the raw step is then
    infinite or negative and the first tick [NaN]. *)
Theorem niceGridTicks_nonpositive_count (fuel : nat) (min max count : Q) :
  count <= 0 -> niceGridTicks (S fuel) min max count = Some [].
Proof.
  intros Hcount. unfold niceGridTicks.
  destruct (Qle_bool (max - min) 0) eqn:Hrange; [reflexivity|]. qbool.
  assert (0 < max - min) as Hpos by lra.
  cbn [div]. destruct (Qeq_bool count 0) eqn:Hzero; qbool.
  - now rewrite (Qsign_pos _ Hpos).
  - unfold pow10_floor_log10.
    assert (count < 0) as Hneg.
    { destruct (Qlt_le_dec count 0) as [H|H]; [exact H|].
      exfalso. apply Hzero. lra. }
    now rewrite (Qsign_neg _ (Qdiv_pos_neg _ _ Hpos Hneg)).
Qed.

Lemma niceGridTicks_nonpositive_count_witness :
  niceGridTicks 1 0 100 0 = Some [].
Proof.
  apply (niceGridTicks_nonpositive_count 0 0 100 0). now apply Qle_bool_iff.
Defined.

(** ** The momentum of the live line: further properties *)

(** Without a window the loop leaves the sentinels, the range is
    [-Infinity] and so is the threshold. *)
Lemma detectMomentum_no_window (data : list Q) (lookback : Z) :
  (5 <= length data)%nat -> (lookback <= 0)%Z ->
  detectMomentum data lookback = up.
Proof.
  intros Hlen Hlook. unfold detectMomentum.
  assert ((Z.of_nat (length data) <? 5)%Z = false) as ->
    by (apply Z.ltb_ge; lia).
  set (start := Z.to_nat (Z.max 0 (Z.of_nat (length data) - lookback))).
  replace (length data - start)%nat with 0%nat by lia.
  reflexivity.
Qed.

(** X27. With five or more points and a lookback of zero or less the
    window is empty, and the result is up whatever the data. *)
Theorem detectMomentum_nonpositive_lookback (data : list Q) (lookback : Z) :
  (5 <= length data)%nat -> (lookback <= 0)%Z ->
  detectMomentum data lookback = up.
Proof. apply detectMomentum_no_window. Qed.

Lemma detectMomentum_nonpositive_lookback_witness :
  detectMomentum [5; 4; 3; 2; 1] 0 = up.
Proof.
  apply (detectMomentum_nonpositive_lookback [5; 4; 3; 2; 1] 0);
    cbn [length]; lia.
Defined.

Lemma last_drop {A : Type} (l : list A) (n : nat) :
  (n < length l)%nat -> last (drop n l) = last l.
Proof.
  intros Hn. rewrite !last_lookup, lookup_drop, length_drop.
  f_equal. lia.
Qed.

(** With five or more points and a positive lookback, the result is the
    decision on the range of the window and the change over its trailing
    five values. *)
Lemma detectMomentum_eval (data : list Q) (lookback : Z) :
  (5 <= length data)%nat -> (1 <= lookback)%Z ->
  let start := Z.to_nat (Z.max 0 (Z.of_nat (length data) - lookback)) in
  exists mn mx first lastValue : Q,
    is_min mn (drop start data) /\ is_max mx (drop start data)
    /\ data !! Nat.max start (length data - 5) = Some first
    /\ last data = Some lastValue
    /\ detectMomentum data lookback
       = classify (mx - mn) (lastValue - first).
Proof.
  intros Hlen Hlook start.
  assert (start < length data)%nat as Hstart by lia.
  assert (drop start data <> []) as Hdrop.
  { intros Hnil. apply (f_equal length) in Hnil.
    rewrite length_drop in Hnil. cbn in Hnil. lia. }
  destruct (minmax_fold_sentinel (drop start data) Hdrop)
    as (a & b & E & Ha & Hb).
  destruct (lookup_lt_is_Some_2 data (Nat.max start (length data - 5))
              ltac:(lia)) as [first Hfirst].
  destruct (lookup_lt_is_Some_2 data (pred (length data)) ltac:(lia))
    as [lastValue Hlast].
  rewrite <- last_lookup in Hlast.
  exists a, b, first, lastValue.
  do 4 (split; [assumption|]).
  unfold detectMomentum.
  assert ((Z.of_nat (length data) <? 5)%Z = false) as ->
    by (apply Z.ltb_ge; lia).
  fold start. rewrite momentum_fold_seq by lia.
  rewrite take_ge by (rewrite length_drop; lia).
  rewrite E, Hfirst, Hlast. reflexivity.
Qed.

Lemma classify_comp (r r' d d' : Q) :
  r == r' -> d == d' -> classify r d = classify r' d'.
Proof.
  intros Hr Hd. unfold classify.
  destruct (Qeq_bool r 0) eqn:E1, (Qeq_bool r' 0) eqn:E1';
    destruct (Qltb (r * 0.12) d) eqn:E2, (Qltb (r' * 0.12) d') eqn:E2';
    destruct (Qltb d (- (r * 0.12))) eqn:E3,
             (Qltb d' (- (r' * 0.12))) eqn:E3';
    qbool; try reflexivity; exfalso;
    first [lra | apply E1; lra | apply E1'; lra].
Qed.


Lemma classify_opp (r d : Q) :
  0 <= r -> classify r (- d) = opposite (classify r d).
Proof.
  intros Hr. unfold classify.
  destruct (Qeq_bool r 0) eqn:E1; [reflexivity|].
  destruct (Qltb (r * 0.12) (- d)) eqn:E2, (Qltb (r * 0.12) d) eqn:E2';
    destruct (Qltb (- d) (- (r * 0.12))) eqn:E3,
             (Qltb d (- (r * 0.12))) eqn:E3';
    qbool; try reflexivity; exfalso; lra.
Qed.



Lemma is_min_map_opp (m : Q) (l : list Q) :
  is_max m l -> is_min (- m) (map Qopp l).
Proof.
  intros [Hm Hl]. split.
  - apply list_elem_of_In, in_map, list_elem_of_In, Hm.
  - apply Forall_map. eapply Forall_impl; [exact Hl|]. cbn.
    intros x Hx. lra.
Qed.

Lemma is_max_map_opp (m : Q) (l : list Q) :
  is_min m l -> is_max (- m) (map Qopp l).
Proof.
  intros [Hm Hl]. split.
  - apply list_elem_of_In, in_map, list_elem_of_In, Hm.
  - apply Forall_map. eapply Forall_impl; [exact Hl|]. cbn.
    intros x Hx. lra.
Qed.

(** The values that [detectMomentum] reads from a mapped series. *)
Lemma detectMomentum_map (f : Q -> Q) (data : list Q) (lookback : Z) :
  (5 <= length data)%nat -> (1 <= lookback)%Z ->
  let start := Z.to_nat (Z.max 0 (Z.of_nat (length data) - lookback)) in
  exists mn mx mn' mx' first lastValue : Q,
    is_min mn (drop start data) /\ is_max mx (drop start data)
    /\ is_min mn' (map f (drop start data))
    /\ is_max mx' (map f (drop start data))
    /\ detectMomentum data lookback
       = classify (mx - mn) (lastValue - first)
    /\ detectMomentum (map f data) lookback
       = classify (mx' - mn') (f lastValue - f first).
Proof.
  intros Hlen Hlook start.
  destruct (detectMomentum_eval data lookback Hlen Hlook)
    as (mn & mx & first & lastValue & Hmn & Hmx & Hfirst & Hlast & E).
  fold start in Hmn, Hmx, Hfirst.
  destruct (detectMomentum_eval (map f data) lookback)
    as (mn' & mx' & first' & lastValue' & Hmn' & Hmx' & Hfirst' & Hlast'
        & E'); [now rewrite length_map | exact Hlook |].
  rewrite length_map in Hmn', Hmx', Hfirst'. fold start in Hmn', Hmx', Hfirst'.
  rewrite skipn_map in Hmn', Hmx'.
  change (map f data) with (f <$> data) in Hfirst', Hlast'.
  rewrite list_lookup_fmap, Hfirst in Hfirst'.
  rewrite fmap_last, Hlast in Hlast'.
  injection Hfirst' as <-. injection Hlast' as <-.
  exists mn, mx, mn', mx', first, lastValue.
  do 4 (split; [assumption|]). split; assumption.
Qed.



(** X29. With a positive lookback the momentum of the mirrored series is
    the opposite one: up and down change places. *)
Theorem detectMomentum_mirror (data : list Q) (lookback : Z) :
  (1 <= lookback)%Z ->
  detectMomentum (map Qopp data) lookback
  = opposite (detectMomentum data lookback).
Proof.
  intros Hlook.
  destruct (Nat.lt_ge_cases (length data) 5) as [Hlen|Hlen].
  { unfold detectMomentum. rewrite length_map.
    now assert ((Z.of_nat (length data) <? 5)%Z = true) as ->
      by (apply Z.ltb_lt; lia). }
  destruct (detectMomentum_map Qopp data lookback Hlen Hlook)
    as (mn & mx & mn' & mx' & first & lastValue & Hmn & Hmx & Hmn' & Hmx'
        & -> & ->).
  pose proof (is_min_unique _ _ _ Hmn' (is_min_map_opp _ _ Hmx)) as Emn.
  pose proof (is_max_unique _ _ _ Hmx' (is_max_map_opp _ _ Hmn)) as Emx.
  pose proof (is_min_le_max _ _ _ Hmn Hmx) as Hle.
  rewrite <- (classify_opp (mx - mn) (lastValue - first)) by lra.
  apply classify_comp; [rewrite Emn, Emx|]; ring.
Qed.

Lemma detectMomentum_mirror_witness :
  detectMomentum (map Qopp [1; 2; 3; 4; 9]) 20
  = opposite (detectMomentum [1; 2; 3; 4; 9] 20).
Proof.
  apply (detectMomentum_mirror [1; 2; 3; 4; 9] 20). lia.
Defined.

(** X30. With a lookback of five or more only the window counts: the
    points before the last [lookback] ones do not change the result. *)
Theorem detectMomentum_window (data : list Q) (lookback : Z) :
  (5 <= lookback)%Z ->
  detectMomentum (window data lookback) lookback
  = detectMomentum data lookback.
Proof.
  intros Hlook.
  destruct (Nat.lt_ge_cases (length data) 5) as [Hlen|Hlen].
  { unfold window.
    replace (length data
             - Z.to_nat (Z.min lookback (Z.of_nat (length data))))%nat
      with 0%nat by lia.
    reflexivity. }
  set (start := Z.to_nat (Z.max 0 (Z.of_nat (length data) - lookback))).
  assert (window data lookback = drop start data) as Hw
    by (unfold window; f_equal; lia).
  rewrite Hw. unfold detectMomentum. rewrite length_drop. fold start.
  assert ((Z.of_nat (length data - start) <? 5)%Z = false) as ->
    by (apply Z.ltb_ge; lia).
  assert ((Z.of_nat (length data) <? 5)%Z = false) as ->
    by (apply Z.ltb_ge; lia).
  replace (Z.to_nat (Z.max 0 (Z.of_nat (length data - start) - lookback)))
    with 0%nat by lia.
  rewrite !momentum_fold_seq by (rewrite ?length_drop; lia).
  rewrite Nat.sub_0_r, drop_0.
  rewrite !take_ge by (rewrite ?length_drop; lia).
  rewrite lookup_drop, last_drop by lia.
  replace (start + Nat.max 0 (length data - start - 5))%nat
    with (Nat.max start (length data - 5)) by lia.
  reflexivity.
Qed.

Lemma detectMomentum_window_witness :
  detectMomentum (window [9; 1; 2; 3; 4; 9] 5) 5
  = detectMomentum [9; 1; 2; 3; 4; 9] 5.
Proof.
  apply (detectMomentum_window [9; 1; 2; 3; 4; 9] 5). lia.
Defined.

(** * Binary64 arithmetic: properties *)

(** ** Rounding *)

Section Rounding.

Import B64.

Lemma rne_cases (x : Q) : rne x = Qfloor x \/ rne x = (Qfloor x + 1)%Z.
Proof.
  unfold rne. destruct (Qcompare _ _); [destruct (Z.even _)| |]; auto.
Qed.

Lemma rne_near (x : Q) :
  inject_Z (rne x) - x <= 1 # 2 /\ x - inject_Z (rne x) <= 1 # 2.
Proof.
  pose proof (Qfloor_le x) as Hlo. pose proof (Qlt_floor x) as Hhi.
  rewrite inject_Z_plus in Hhi. change (inject_Z 1) with 1 in Hhi.
  unfold rne.
  destruct (Qcompare_spec (x - inject_Z (Qfloor x)) (1 # 2)) as [H|H|H];
    [destruct (Z.even _)| |];
    rewrite ?inject_Z_plus; change (inject_Z 1) with 1;
    set (f := inject_Z (Qfloor x)) in *; split; lra.
Qed.

Lemma rne_Z (z : Z) : rne (inject_Z z) = z.
Proof.
  unfold rne. rewrite Qfloor_Z.
  destruct (Qcompare_spec (inject_Z z - inject_Z z) (1 # 2)) as [H|H|H];
    [exfalso|reflexivity|exfalso]; set (f := inject_Z z) in *; lra.
Qed.

Lemma rne_mono (x y : Q) : x <= y -> (rne x <= rne y)%Z.
Proof.
  intros Hxy. pose proof (Qfloor_resp_le x y Hxy) as Hf.
  destruct (Z.eq_dec (Qfloor x) (Qfloor y)) as [E|E].
  - unfold rne. rewrite E.
    destruct (Qcompare_spec (x - inject_Z (Qfloor y)) (1 # 2)) as [Hx|Hx|Hx];
      destruct (Qcompare_spec (y - inject_Z (Qfloor y)) (1 # 2)) as [Hy|Hy|Hy];
      try destruct (Z.even (Qfloor y)); try lia;
      exfalso; set (f := inject_Z (Qfloor y)) in *; lra.
  - destruct (rne_cases x) as [-> | ->], (rne_cases y) as [-> | ->]; lia.
Qed.

Lemma rne_comp (x y : Q) : x == y -> rne x = rne y.
Proof.
  intros E. apply Z.le_antisymm; apply rne_mono; lra.
Qed.

Lemma pow2_pos (e : Z) : 0 < 2 ^ e.
Proof. apply Qpower_0_lt. reflexivity. Qed.

Lemma pow2_le (a b : Z) : (a <= b)%Z -> 2 ^ a <= 2 ^ b.
Proof. intros H. apply Qpower_le_compat_l; [exact H | discriminate]. Qed.

Lemma pow2_lt (a b : Z) : (a < b)%Z -> 2 ^ a < 2 ^ b.
Proof. intros H. apply Qpower_lt_compat_l; [exact H | reflexivity]. Qed.

Lemma pow2_plus (a b : Z) : 2 ^ (a + b) == 2 ^ a * 2 ^ b.
Proof. apply Qpower_plus. discriminate. Qed.

Lemma pow2_minus (a b : Z) : 2 ^ (a - b) == 2 ^ a / 2 ^ b.
Proof. apply Qpower_minus. discriminate. Qed.

Lemma pow2_inject (n : Z) : (0 <= n)%Z -> inject_Z (2 ^ n) == 2 ^ n.
Proof. intros H. now rewrite Zpower_Qpower. Qed.

Lemma ilog2_spec (x : Q) :
  0 < x -> 2 ^ ilog2 x <= x /\ x < 2 ^ (ilog2 x + 1).
Proof.
  intros Hx. unfold ilog2. destruct x as [n d]. cbn [Qnum Qden].
  assert (0 < n)%Z as Hn by (unfold Qlt in Hx; cbn in Hx; lia).
  pose proof (Z.log2_nonneg n) as Ha.
  pose proof (Z.log2_nonneg (Z.pos d)) as Hb.
  destruct (Z.log2_spec n Hn) as [Hn1 Hn2].
  destruct (Z.log2_spec (Z.pos d) ltac:(lia)) as [Hd1 Hd2].
  set (a := Z.log2 n) in *. set (b := Z.log2 (Z.pos d)) in *.
  rewrite Zle_Qle, pow2_inject in Hn1, Hd1 by lia.
  rewrite Zlt_Qlt, pow2_inject in Hn2, Hd2 by lia.
  unfold Z.succ in Hn2, Hd2. rewrite pow2_plus in Hn2, Hd2.
  change (2 ^ 1) with 2 in Hn2, Hd2.
  pose proof (pow2_pos a) as Pa. pose proof (pow2_pos b) as Pb.
  assert (n # d == inject_Z n / inject_Z (Z.pos d)) as Ex
    by apply Qmake_Qdiv.
  set (N := inject_Z n) in *. set (D := inject_Z (Z.pos d)) in *.
  assert (0 < D) as HD by lra.
  destruct (Qle_bool (2 ^ (a - b)) (n # d)) eqn:Htest.
  - apply Qle_bool_iff in Htest. split; [exact Htest|].
    rewrite Ex.
    replace (a - b + 1)%Z with (a + 1 - b)%Z by lia.
    rewrite pow2_minus, pow2_plus. change (2 ^ 1) with 2.
    apply Qlt_shift_div_r; [exact HD|].
    assert (2 ^ a * 2 / 2 ^ b * D == 2 ^ a * 2 * (D / 2 ^ b)) as ->
      by (field; lra).
    assert (1 <= D / 2 ^ b) by (apply Qle_shift_div_l; lra).
    nra.
  - assert (~ 2 ^ (a - b) <= n # d) as Hnot
      by (intros H; apply Qle_bool_iff in H; congruence).
    apply Qnot_le_lt in Hnot. split.
    + rewrite Ex. replace (a - b - 1)%Z with (a - (b + 1))%Z by lia.
      rewrite pow2_minus, pow2_plus. change (2 ^ 1) with 2.
      apply Qle_shift_div_l; [exact HD|].
      assert (2 ^ a / (2 ^ b * 2) * D == 2 ^ a * (D / (2 ^ b * 2))) as ->
        by (field; lra).
      assert (D / (2 ^ b * 2) <= 1) by (apply Qle_shift_div_r; lra).
      nra.
    + now replace (a - b - 1 + 1)%Z with (a - b)%Z by lia.
Qed.

Lemma ilog2_unique (x : Q) (e : Z) :
  2 ^ e <= x -> x < 2 ^ (e + 1) -> ilog2 x = e.
Proof.
  intros Hlo Hhi.
  assert (0 < x) as Hx by (pose proof (pow2_pos e); lra).
  destruct (ilog2_spec x Hx) as [Hlo' Hhi'].
  assert (ilog2 x < e + 1)%Z.
  { apply (Qpower_lt_compat_l_inv 2); [lra | reflexivity]. }
  assert (e < ilog2 x + 1)%Z.
  { apply (Qpower_lt_compat_l_inv 2); [lra | reflexivity]. }
  lia.
Qed.

Lemma ilog2_mono (x y : Q) : 0 < x -> x <= y -> (ilog2 x <= ilog2 y)%Z.
Proof.
  intros Hx Hxy.
  destruct (ilog2_spec x Hx) as [Hlo _].
  destruct (ilog2_spec y ltac:(lra)) as [_ Hhi].
  assert (ilog2 x < ilog2 y + 1)%Z.
  { apply (Qpower_lt_compat_l_inv 2); [lra | reflexivity]. }
  lia.
Qed.

Lemma ilog2_comp (x y : Q) : 0 < x -> x == y -> ilog2 x = ilog2 y.
Proof.
  intros Hx E. symmetry. destruct (ilog2_spec x Hx) as [Hlo Hhi].
  apply ilog2_unique; lra.
Qed.


Lemma ulp_pos (x : Q) : 0 < ulp x.
Proof. apply pow2_pos. Qed.

(** The scaled value of a positive number lies in [[2^52, 2^53)]. *)
Lemma scaled_bounds (x : Q) :
  0 < x -> 2 ^ 52 <= x / ulp x /\ x / ulp x < 2 ^ 53.
Proof.
  intros Hx. destruct (ilog2_spec x Hx) as [Hlo Hhi].
  pose proof (ulp_pos x) as Hu. unfold ulp in *.
  set (e := ilog2 x) in *.
  assert (2 ^ e == 2 ^ 52 * 2 ^ (e - 52)) as E1
    by (rewrite <- pow2_plus; now replace (52 + (e - 52))%Z with e by lia).
  assert (2 ^ (e + 1) == 2 ^ 53 * 2 ^ (e - 52)) as E2
    by (rewrite <- pow2_plus;
        now replace (53 + (e - 52))%Z with (e + 1)%Z by lia).
  split.
  - apply Qle_shift_div_l; [exact Hu | lra].
  - apply Qlt_shift_div_r; [exact Hu | lra].
Qed.

Lemma mantissa_bounds (x : Q) :
  0 < x -> (2 ^ 52 <= rne (x / ulp x) <= 2 ^ 53)%Z.
Proof.
  intros Hx. destruct (scaled_bounds x Hx) as [Hlo Hhi].
  rewrite <- (rne_Z (2 ^ 52)), <- (rne_Z (2 ^ 53)).
  split; apply rne_mono; rewrite pow2_inject by lia; lra.
Qed.

Lemma round_pos_bounds (x : Q) :
  0 < x ->
  2 ^ ilog2 x <= round_pos x /\ round_pos x <= 2 ^ (ilog2 x + 1).
Proof.
  intros Hx. destruct (mantissa_bounds x Hx) as [Hlo Hhi].
  rewrite Zle_Qle, pow2_inject in Hlo, Hhi by lia.
  pose proof (ulp_pos x) as Hu. unfold round_pos.
  set (m := inject_Z (rne (x / ulp x))) in *. unfold ulp in *.
  set (e := ilog2 x) in *.
  assert (2 ^ e == 2 ^ 52 * 2 ^ (e - 52)) as ->
    by (rewrite <- pow2_plus; now replace (52 + (e - 52))%Z with e by lia).
  assert (2 ^ (e + 1) == 2 ^ 53 * 2 ^ (e - 52)) as ->
    by (rewrite <- pow2_plus;
        now replace (53 + (e - 52))%Z with (e + 1)%Z by lia).
  split; apply Qmult_le_compat_r; lra.
Qed.

Lemma round_pos_pos (x : Q) : 0 < x -> 0 < round_pos x.
Proof.
  intros Hx. destruct (round_pos_bounds x Hx) as [Hlo _].
  pose proof (pow2_pos (ilog2 x)). lra.
Qed.

(** Rounding moves a positive number by half a unit in the last place at
    most, which is at most [2^-53] of the number. *)
Lemma round_pos_near (x : Q) :
  0 < x ->
  round_pos x - x <= x * (1 # 2 ^ 53) /\ x - round_pos x <= x * (1 # 2 ^ 53).
Proof.
  intros Hx. destruct (scaled_bounds x Hx) as [Hlo _].
  destruct (rne_near (x / ulp x)) as [H1 H2].
  pose proof (ulp_pos x) as Hu. unfold round_pos.
  set (m := inject_Z (rne (x / ulp x))) in *.
  set (u := ulp x) in *.
  assert (x == x / u * u) as Ex by (field; lra).
  set (y := x / u) in *.
  change (2 ^ 52) with (4503599627370496 # 1) in Hlo.
  change (1 # 2 ^ 53) with (1 # 9007199254740992).
  assert ((m - y) * u <= (1 # 2) * u) by (apply Qmult_le_compat_r; lra).
  assert ((y - m) * u <= (1 # 2) * u) by (apply Qmult_le_compat_r; lra).
  assert ((4503599627370496 # 1) * u <= y * u)
    by (apply Qmult_le_compat_r; lra).
  split; lra.
Qed.

Lemma round_pos_comp (x y : Q) :
  0 < x -> x == y -> round_pos x == round_pos y.
Proof.
  intros Hx E. unfold round_pos, ulp.
  rewrite <- (ilog2_comp x y Hx E). set (u := 2 ^ (ilog2 x - 52)).
  rewrite (rne_comp (x / u) (y / u)) by (now rewrite E).
  reflexivity.
Qed.

Lemma round_pos_mono (x y : Q) :
  0 < x -> x <= y -> round_pos x <= round_pos y.
Proof.
  intros Hx Hxy. assert (0 < y) as Hy by lra.
  pose proof (ilog2_mono x y Hx Hxy) as He.
  destruct (Z.eq_dec (ilog2 x) (ilog2 y)) as [E|E].
  - unfold round_pos, ulp. rewrite E.
    pose proof (pow2_pos (ilog2 y - 52)) as Hu.
    apply Qmult_le_compat_r; [|lra]. rewrite <- Zle_Qle.
    apply rne_mono. unfold Qdiv. apply Qmult_le_compat_r; [exact Hxy|].
    apply Qinv_le_0_compat. lra.
  - destruct (round_pos_bounds x Hx) as [_ Hhi].
    destruct (round_pos_bounds y Hy) as [Hlo _].
    pose proof (pow2_le (ilog2 x + 1) (ilog2 y) ltac:(lia)). lra.
Qed.

(** A positive number whose scaled value is an integer is a binary64
    number. *)
Lemma round_pos_fix (x : Q) (m : Z) :
  0 < x -> x == inject_Z m * ulp x -> round_pos x == x.
Proof.
  intros Hx E. pose proof (ulp_pos x) as Hu. unfold round_pos.
  rewrite (rne_comp (x / ulp x) (inject_Z m)), rne_Z; [now rewrite <- E|].
  rewrite E at 1. field. lra.
Qed.

Lemma round_pos_idem (x : Q) :
  0 < x -> round_pos (round_pos x) == round_pos x.
Proof.
  intros Hx. destruct (mantissa_bounds x Hx) as [Hlo Hhi].
  pose proof (round_pos_pos x Hx) as Hr.
  pose proof (ulp_pos x) as Hu.
  set (m := rne (x / ulp x)) in *.
  assert (round_pos x = inject_Z m * ulp x) as Er by reflexivity.
  set (e := ilog2 x) in *.
  destruct (Z.eq_dec m (2 ^ 53)%Z) as [Hm|Hm].
  - assert (round_pos x == 2 ^ (e + 1)) as E.
    { rewrite Er, Hm, pow2_inject by lia. unfold ulp. fold e.
      rewrite <- pow2_plus. now replace (53 + (e - 52))%Z with (e + 1)%Z by lia. }
    apply (round_pos_fix _ (2 ^ 52)); [exact Hr|].
    assert (ilog2 (round_pos x) = (e + 1)%Z) as He.
    { apply ilog2_unique; [lra|]. rewrite E. apply pow2_lt. lia. }
    unfold ulp. rewrite He, E, pow2_inject, <- pow2_plus by lia.
    now replace (52 + (e + 1 - 52))%Z with (e + 1)%Z by lia.
  - apply (round_pos_fix _ m); [exact Hr|].
    assert (ilog2 (round_pos x) = e) as He.
    { destruct (round_pos_bounds x Hx) as [Hb _].
      apply ilog2_unique; [exact Hb|]. rewrite Er. unfold ulp. fold e.
      assert (2 ^ (e + 1) == 2 ^ 53 * 2 ^ (e - 52)) as ->
        by (rewrite <- pow2_plus;
            now replace (53 + (e - 52))%Z with (e + 1)%Z by lia).
      apply Qmult_lt_compat_r; [apply pow2_pos|].
      rewrite <- pow2_inject by lia. rewrite <- Zlt_Qlt. lia. }
    unfold ulp. rewrite He. rewrite Er. reflexivity.
Qed.


Lemma round_gt (x : Q) : 0 < x -> round x = round_pos x.
Proof. intros H. unfold round. now rewrite (proj1 (Qgt_alt x 0) H). Qed.

Lemma round_lt (x : Q) : x < 0 -> round x = - round_pos (- x).
Proof. intros H. unfold round. now rewrite (proj1 (Qlt_alt x 0) H). Qed.

Lemma round_eq0 (x : Q) : x == 0 -> round x = 0.
Proof. intros H. unfold round. now rewrite (proj1 (Qeq_alt x 0) H). Qed.

Lemma round_positive (x : Q) : 0 < x -> 0 < round x.
Proof. intros H. rewrite (round_gt x H). now apply round_pos_pos. Qed.

Lemma round_negative (x : Q) : x < 0 -> round x < 0.
Proof.
  intros H. rewrite (round_lt x H).
  pose proof (round_pos_pos (- x) ltac:(lra)). lra.
Qed.

Lemma round_nonneg (x : Q) : 0 <= x -> 0 <= round x.
Proof.
  intros H. destruct (Qlt_le_dec 0 x) as [Hx|Hx].
  - pose proof (round_positive x Hx). lra.
  - rewrite (round_eq0 x) by lra. lra.
Qed.


Lemma round_mono (x y : Q) : x <= y -> round x <= round y.
Proof.
  intros Hxy. destruct (Q_dec x 0) as [[Hx|Hx]|Hx].
  - destruct (Qlt_le_dec y 0) as [Hy|Hy].
    + rewrite (round_lt x Hx), (round_lt y Hy).
      pose proof (round_pos_mono (- y) (- x) ltac:(lra) ltac:(lra)). lra.
    + pose proof (round_negative x Hx). pose proof (round_nonneg y Hy). lra.
  - rewrite (round_gt x Hx), (round_gt y) by lra.
    now apply round_pos_mono.
  - rewrite (round_eq0 x Hx). apply round_nonneg. lra.
Qed.

Lemma round_comp (x y : Q) : x == y -> round x == round y.
Proof. intros E. apply Qle_antisym; apply round_mono; lra. Qed.

Lemma round_idem (x : Q) : round (round x) == round x.
Proof.
  destruct (Q_dec x 0) as [[H|H]|H].
  - pose proof (round_negative x H) as Hr.
    rewrite (round_lt (round x) Hr). rewrite (round_lt x H).
    rewrite (round_pos_comp (- - round_pos (- x)) (round_pos (- x)));
      [|pose proof (round_pos_pos (- x) ltac:(lra)); lra | ring].
    rewrite round_pos_idem by lra. reflexivity.
  - pose proof (round_positive x H) as Hr.
    rewrite (round_gt (round x) Hr), (round_gt x H).
    now apply round_pos_idem.
  - rewrite (round_eq0 x H). reflexivity.
Qed.

(** Rounding moves a number by [2^-53] of its magnitude at most. *)
Lemma round_near (x : Q) :
  round x - x <= Qabs x * (1 # 2 ^ 53)
  /\ x - round x <= Qabs x * (1 # 2 ^ 53).
Proof.
  destruct (Q_dec x 0) as [[H|H]|H].
  - rewrite (round_lt x H), (Qabs_neg x) by lra.
    destruct (round_pos_near (- x) ltac:(lra)). split; lra.
  - rewrite (round_gt x H), (Qabs_pos x) by lra.
    now apply round_pos_near.
  - rewrite (round_eq0 x H).
    assert (Qabs x == 0) as -> by (rewrite H; reflexivity). split; lra.
Qed.


Lemma round_is_double (x : Q) : is_double (round x).
Proof. apply round_idem. Qed.

Lemma round_le_double (x y : Q) : is_double y -> x <= y -> round x <= y.
Proof.
  unfold is_double. intros Hy Hxy. pose proof (round_mono x y Hxy). lra.
Qed.

Lemma round_ge_double (x y : Q) : is_double x -> x <= y -> x <= round y.
Proof.
  unfold is_double. intros Hx Hxy. pose proof (round_mono x y Hxy). lra.
Qed.


End Rounding.

(** * The source in binary64 arithmetic *)

(** ** The animator: [nextAnimFrame] *)

(** Rounding errors of a sum and of a difference, in absolute terms. *)
Lemma round_above (x : Q) : B64.round x <= x + Qabs x * (1 # 2 ^ 53).
Proof. destruct (round_near x). lra. Qed.

Lemma round_below (x : Q) : x - Qabs x * (1 # 2 ^ 53) <= B64.round x.
Proof. destruct (round_near x). lra. Qed.

Lemma Qabs_bound (x b : Q) : - b <= x -> x <= b -> Qabs x <= b.
Proof. intros H1 H2. apply Qabs_Qle_condition. split; assumption. Qed.

Lemma Qabs_lower (x : Q) : - Qabs x <= x.
Proof.
  pose proof (Qle_Qabs (- x)) as H. rewrite Qabs_opp in H. lra.
Qed.






(** ** The interval picker: [pickNiceInterval] *)

(** C3 as stated fails on the code: the code multiplies the previous
    interval by the rounded quotient [chartHeight / valRange].  With a
    range of 25000 on 120 pixels, a gap of 24 and a previous interval of
    2500, the spacing of the claim is [2500 * 120 / 25000 = 12], half the
    gap, in exact and in binary64 arithmetic alike; the code computes
    [2500 * (120 / 25000) < 12], searches, and returns 10000. *)
Lemma pickNiceInterval_hysteresis_counterexample :
  (0.5 * 24 <= 2500 * 120 / 25000 /\ 2500 * 120 / 25000 <= 3 * 24)
  /\ (0.5 ⊗ 24 <= 2500 ⊗ 120 ⊘ 25000 /\ 2500 ⊗ 120 ⊘ 25000 <= 3 ⊗ 24)
  /\ exists interval : Q,
      Rounded.pickNiceInterval 20 25000 120 24 2500 = Some (Fin interval)
      /\ interval == 10000.
Proof.
  split; [now vm_compute|]. split; [now vm_compute|].
  eexists. split; [vm_compute; reflexivity | now vm_compute].
Qed.

(** C3, amended. The hysteresis rule holds for the spacing that the code
    computes: the product of the previous interval and the quotient
    [chartHeight / valRange], each rounded. *)
Theorem pickNiceInterval_hysteresis_rounded
    (fuel : nat) (valRange chartHeight minGap prevInterval : Q) :
  0 < valRange -> 0 < chartHeight -> 0 < prevInterval ->
  minGap ⊗ 0.5 <= prevInterval ⊗ (chartHeight ⊘ valRange) ->
  prevInterval ⊗ (chartHeight ⊘ valRange) <= minGap ⊗ 3 ->
  Rounded.pickNiceInterval fuel valRange chartHeight minGap prevInterval
  = Some (Fin prevInterval).
Proof.
  intros Hr Hh Hp Hlo Hhi. unfold Rounded.pickNiceInterval.
  assert (Qle_bool valRange 0 = false) as -> by (qbool; lra).
  assert (Qle_bool chartHeight 0 = false) as -> by (qbool; lra).
  cbn [orb]. unfold Rounded.keepsInterval.
  assert (Qltb 0 prevInterval = true) as -> by (qbool; lra).
  assert (Qle_bool (minGap ⊗ 0.5) (prevInterval ⊗ (chartHeight ⊘ valRange))
          = true) as -> by (qbool; exact Hlo).
  assert (Qle_bool (prevInterval ⊗ (chartHeight ⊘ valRange)) (minGap ⊗ 3)
          = true) as -> by (qbool; exact Hhi).
  reflexivity.
Qed.

Lemma pickNiceInterval_hysteresis_rounded_witness :
  Rounded.pickNiceInterval 0 25000 120 24 5000 = Some (Fin 5000).
Proof.
  apply (pickNiceInterval_hysteresis_rounded 0 25000 120 24 5000);
    now vm_compute.
Defined.

Section RoundedShrink.

Variables (divs : list Q) (span0 pxPerUnit minGap : Q).
Hypothesis Hdivs : forall i : nat, 2 <= divisor divs i.
Hypothesis Hspan0 : 0 < span0.
Hypothesis Hdouble : B64.is_double span0.
Hypothesis HpxPerUnit : 0 < pxPerUnit.
Hypothesis HminGap : 0 < minGap.










End RoundedShrink.



(** On the code the search stops where the rounded spacing falls below
    the gap: with a range of 25000 on 120 pixels and a gap of 24 the
    spacing of 5000 is computed as [(10000 / 2) * (120 / 25000) < 24],
    and the interval is 10000. *)
Example pickNiceInterval_rounded_25000 :
  exists interval : Q,
    Rounded.pickNiceInterval 20 25000 120 24 0 = Some (Fin interval)
    /\ interval == 10000
    /\ (10000 ⊘ 2) ⊗ (120 ⊘ 25000) < 24
    /\ 24 <= 10000 / 2 * (120 / 25000).
Proof.
  eexists. split; [vm_compute; reflexivity | now vm_compute].
Qed.

(** ** The grid ticks: [niceGridTicks] *)

Lemma rounded_tick_loop_fuel_mono (max niceStep : num) :
  forall (fuel : nat) (v : num) (ticks : list num),
    Rounded.tick_loop fuel v max niceStep = Some ticks ->
    forall fuel' : nat,
      (fuel <= fuel')%nat ->
      Rounded.tick_loop fuel' v max niceStep = Some ticks.
Proof.
  induction fuel as [|fuel IH]; intros v ticks H fuel' Hle; [discriminate|].
  destruct fuel' as [|fuel']; [lia|]. cbn [Rounded.tick_loop] in *.
  destruct (le v max); [|exact H].
  destruct (Rounded.tick_loop fuel (Rounded.rnd (add v niceStep)) max
                              niceStep) as [rest|] eqn:E; [|discriminate].
  now rewrite (IH _ _ E fuel' ltac:(lia)).
Qed.

(** A step that the addition absorbs stops the loop from ever leaving:
    the same tick comes back on every pass. *)
Lemma rounded_tick_loop_absorbed (max step : Q) :
  forall (fuel : nat) (v : Q),
    v <= max -> v ⊕ step == v ->
    Rounded.tick_loop fuel (Fin v) (Fin max) (Fin step) = None.
Proof.
  induction fuel as [|fuel IH]; intros v Hv Habs; [reflexivity|].
  cbn [Rounded.tick_loop le add Rounded.rnd].
  assert (Qle_bool v max = true) as -> by (qbool; exact Hv).
  unfold B64.add in Habs. rewrite IH; [reflexivity | lra |].
  unfold B64.add. transitivity (B64.round (v + step)); [|reflexivity].
  apply round_comp. lra.
Qed.

(** What the loop returns: the ticks ascend strictly from the first
    value, which is there unless it is above [max]; none exceeds [max];
    each is the rounded sum of the one before and the step; and the
    rounded sum of the last one and the step is above [max]. *)
Lemma rounded_tick_loop_sound (max step : Q) :
  0 < step ->
  forall (fuel : nat) (v : Q) (ticks : list num),
    B64.is_double v ->
    Rounded.tick_loop fuel (Fin v) (Fin max) (Fin step) = Some ticks ->
    exists vs : list Q,
      ticks = map Fin vs
      /\ Sorted Qlt vs
      /\ Forall (fun x => v <= x /\ x <= max) vs
      /\ (forall x : Q, head vs = Some x -> x = v)
      /\ (v <= max -> head vs = Some v)
      /\ (forall (i : nat) (x y : Q),
             vs !! i = Some x -> vs !! S i = Some y -> y = x ⊕ step)
      /\ (forall x : Q, last vs = Some x -> max < x ⊕ step).
Proof.
  intros Hstep. induction fuel as [|fuel IH]; intros v ticks Hv Hrun;
    [discriminate|].
  cbn [Rounded.tick_loop le add Rounded.rnd] in Hrun.
  destruct (Qle_bool v max) eqn:Htest; qbool.
  - change (B64.round (v + step)) with (v ⊕ step) in Hrun.
    destruct (Rounded.tick_loop fuel (Fin (v ⊕ step)) (Fin max) (Fin step))
      as [rest|] eqn:Erest; [|discriminate].
    cbn [mbind option_bind] in Hrun. injection Hrun as <-.
    destruct (IH (v ⊕ step) rest (round_is_double _) Erest)
      as (vs & -> & Hsorted & Hall & Hhead & Hfirst & Hchain & Hlast).
    assert (v <= v ⊕ step) as Hle
      by (apply round_ge_double; [exact Hv | lra]).
    assert (v < v ⊕ step) as Hlt.
    { destruct (Qle_lt_or_eq _ _ Hle) as [H|H]; [exact H|exfalso].
      rewrite (rounded_tick_loop_absorbed max step fuel (v ⊕ step)) in Erest;
        [discriminate | lra |].
      unfold B64.add at 1.
      transitivity (B64.round (v + step)); [|reflexivity].
      apply round_comp. lra. }
    exists (v :: vs). split; [reflexivity|].
    split; [|split; [|split; [|split; [|split]]]].
    + constructor; [exact Hsorted|].
      destruct vs as [|x vs]; constructor.
      now rewrite (Hhead x eq_refl).
    + constructor; [lra|]. eapply Forall_impl; [exact Hall|]. cbn.
      intros x [Hx1 Hx2]. lra.
    + intros x Hx. now injection Hx as <-.
    + reflexivity.
    + intros [|i] x y Hx Hy.
      * change (Some v = Some x) in Hx. injection Hx as <-.
        destruct vs as [|z vs]; [discriminate|].
        change (Some z = Some y) in Hy. injection Hy as <-.
        exact (Hhead z eq_refl).
      * exact (Hchain i x y Hx Hy).
    + intros x Hx. destruct vs as [|z vs].
      * injection Hx as <-.
        destruct (Qlt_le_dec max (v ⊕ step)) as [H|H]; [exact H|].
        discriminate (Hfirst H).
      * apply Hlast. exact Hx.
  - injection Hrun as <-. exists [].
    split; [reflexivity|]. split; [constructor|]. split; [constructor|].
    split; [discriminate|]. split; [lra|]. split; discriminate.
Qed.

(** The loop ends when every addition advances by half a step at
    least. *)
Lemma rounded_tick_loop_terminates (max step lo : Q) :
  0 < step ->
  (forall v : Q, lo <= v -> v <= max -> v + step * (1 # 2) <= v ⊕ step) ->
  forall (m : nat) (v : Q) (fuel : nat),
    lo <= v ->
    max < v + inject_Z (Z.of_nat m) * (step * (1 # 2)) ->
    (m < fuel)%nat ->
    exists ticks : list num,
      Rounded.tick_loop fuel (Fin v) (Fin max) (Fin step) = Some ticks.
Proof.
  intros Hstep Hadv. induction m as [|m IH]; intros v fuel Hlo Hmax Hfuel;
    (destruct fuel as [|fuel]; [lia|]);
    cbn [Rounded.tick_loop le add Rounded.rnd].
  - change (inject_Z (Z.of_nat 0)) with 0 in Hmax.
    assert (Qle_bool v max = false) as -> by (qbool; lra). eauto.
  - destruct (Qle_bool v max) eqn:Htest; qbool; [|eauto].
    specialize (Hadv v Hlo Htest).
    change (B64.round (v + step)) with (v ⊕ step).
    destruct (IH (v ⊕ step) fuel) as [rest Hrest]; [lra | | lia |].
    + rewrite Nat2Z.inj_succ in Hmax. unfold Z.succ in Hmax.
      rewrite inject_Z_plus in Hmax. change (inject_Z 1) with 1 in Hmax.
      set (k := inject_Z (Z.of_nat m)) in *. lra.
    + rewrite Hrest. cbn [mbind option_bind]. eauto.
Qed.

Lemma round_sub_nonpositive (min max : Q) :
  max - min <= 0 -> Qle_bool (max ⊖ min) 0 = true.
Proof.
  intros H. qbool. unfold B64.sub.
  apply round_le_double; [reflexivity | exact H].
Qed.

Lemma round_sub_positive (min max : Q) :
  0 < max - min -> Qle_bool (max ⊖ min) 0 = false /\ 0 < max ⊖ min.
Proof.
  intros H. pose proof (round_positive _ H) as Hr.
  split; [qbool; exact Hr | exact Hr].
Qed.

(** With a positive range and a positive count the step is a positive
    binary64 number. *)
Lemma rounded_niceStep_positive (min max count : Q) :
  0 < count -> 0 < max - min ->
  exists step : Q, Rounded.niceStep min max count = Fin step /\ 0 < step.
Proof.
  intros Hcount Hrange. unfold Rounded.niceStep.
  destruct (round_sub_positive min max Hrange) as [_ Hr].
  set (range := max ⊖ min) in *. cbn [div].
  assert (Qeq_bool count 0 = false) as -> by (qbool; lra).
  cbn [Rounded.rnd].
  assert (0 < B64.round (range / count)) as Hraw
    by (apply round_positive, Qlt_shift_div_l; lra).
  set (rawStep := B64.round (range / count)) in *.
  unfold pow10_floor_log10. rewrite (Qsign_pos rawStep Hraw).
  cbn [Rounded.rnd].
  assert (0 < B64.round (10 ^ floor_log10 rawStep)) as Hmag
    by (apply round_positive, Qpower_0_lt; lra).
  set (magnitude := B64.round (10 ^ floor_log10 rawStep)) in *.
  cbn [div]. assert (Qeq_bool magnitude 0 = false) as -> by (qbool; lra).
  cbn [Rounded.rnd le mul].
  destruct (Qle_bool _ 1.5); [eauto|].
  destruct (Qle_bool _ 3);
    [eexists; split; [reflexivity | apply round_positive; lra]|].
  destruct (Qle_bool _ 7);
    eexists; (split; [reflexivity | apply round_positive; lra]).
Qed.

(** With a positive range and a count of zero or less the first tick is
    [NaN]. *)
Lemma rounded_tickStart_nan (min max count : Q) :
  count <= 0 -> 0 < max - min ->
  Rounded.tickStart min (Rounded.niceStep min max count) = NaN.
Proof.
  intros Hcount Hrange. unfold Rounded.niceStep.
  destruct (round_sub_positive min max Hrange) as [_ Hr].
  set (range := max ⊖ min) in *. cbn [div].
  destruct (Qeq_bool count 0) eqn:Hzero; qbool.
  - now rewrite (Qsign_pos _ Hr).
  - assert (count < 0) as Hneg.
    { destruct (Qlt_le_dec count 0) as [H|H]; [exact H|].
      exfalso. apply Hzero. lra. }
    cbn [Rounded.rnd]. unfold pow10_floor_log10.
    now rewrite (Qsign_neg _ (round_negative _ (Qdiv_pos_neg _ _ Hr Hneg))).
Qed.

Lemma Qabs_div_mult (x s : Q) : 0 < s -> Qabs (x / s) * s == Qabs x.
Proof.
  intros Hs. unfold Qdiv. rewrite Qabs_Qmult.
  rewrite (Qabs_pos (/ s)) by (apply Qinv_le_0_compat; lra).
  field. lra.
Qed.

(** The first tick lies below [min] by a rounding error at most, and
    above it by less than a step and a rounding error. *)
Lemma rounded_start_bounds (min step : Q) :
  0 < step ->
  let start := B64.round (inject_Z (Qceiling (B64.round (min / step))) * step)
  in
  min - (Qabs min + step) * (1 # 2 ^ 51) <= start
  /\ start <= min + step + (Qabs min + step) * (1 # 2 ^ 51).
Proof.
  intros Hstep start. subst start.
  pose proof (round_below (min / step)) as Hq1.
  pose proof (round_above (min / step)) as Hq2.
  set (q := B64.round (min / step)) in *.
  pose proof (Qle_ceiling q) as Hc1. pose proof (Qceiling_lt q) as Hc2.
  unfold Z.sub in Hc2. rewrite inject_Z_plus in Hc2.
  change (inject_Z (- (1))) with (-1 # 1) in Hc2.
  set (c := inject_Z (Qceiling q)) in *.
  pose proof (Qabs_div_mult min step Hstep) as Ea.
  assert (min / step * step == min) as Em by (field; lra).
  pose proof (Qabs_nonneg min) as Hm0.
  pose proof (Qabs_nonneg (min / step)) as Hx0.
  pose proof (Qle_Qabs min) as Hm1. pose proof (Qabs_lower min) as Hm2.
  change (1 # 2 ^ 53) with (1 # 9007199254740992) in *.
  change (1 # 2 ^ 51) with (1 # 2251799813685248).
  set (M := Qabs min) in *. set (A := Qabs (min / step)) in *.
  set (x := min / step) in *.
  assert (min - M * (1 # 9007199254740992) <= c * step) as Hlo by nra.
  assert (c * step <= min + M * (1 # 9007199254740992) + step) as Hhi
    by nra.
  pose proof (round_below (c * step)) as Hs1.
  pose proof (round_above (c * step)) as Hs2.
  change (1 # 2 ^ 53) with (1 # 9007199254740992) in *.
  assert (Qabs (c * step) <= (M + step) * 2) as Hab
    by (apply Qabs_bound; lra).
  set (C := Qabs (c * step)) in *. set (y := c * step) in *.
  split; lra.
Qed.

(** When the step is not small against the ends of the domain, every
    addition of the loop advances by half a step at least. *)
Lemma rounded_step_advances (min max step v : Q) :
  0 < step ->
  Qabs min + Qabs max <= step * 2 ^ 50 ->
  min - (Qabs min + step) * (1 # 2 ^ 51) <= v -> v <= max ->
  v + step * (1 # 2) <= v ⊕ step.
Proof.
  intros Hstep Hbig Hlo Hhi. unfold B64.add.
  pose proof (round_below (v + step)) as Hr.
  pose proof (Qabs_nonneg min) as Hm0. pose proof (Qabs_nonneg max) as Hx0.
  pose proof (Qle_Qabs max) as Hx1. pose proof (Qabs_lower min) as Hm2.
  change (1 # 2 ^ 53) with (1 # 9007199254740992) in *.
  change (1 # 2 ^ 51) with (1 # 2251799813685248) in *.
  change (2 ^ 50) with (1125899906842624 # 1) in *.
  set (M := Qabs min) in *. set (X := Qabs max) in *.
  assert (Qabs (v + step) <= step * (4503599627370496 # 1)) as Hab
    by (apply Qabs_bound; lra).
  set (A := Qabs (v + step)) in *. lra.
Qed.

Lemma rounded_tickStart_finite (min step : Q) :
  0 < step ->
  Rounded.tickStart min (Fin step)
  = Fin (B64.round
           (inject_Z (Qceiling (B64.round (min / step))) * step)).
Proof.
  intros Hstep. unfold Rounded.tickStart. cbn [div].
  now assert (Qeq_bool step 0 = false) as -> by (qbool; lra).
Qed.

(** C6 as stated fails on the code: the first tick is a rounded product
    and can lie below [min].  Between [-30.7] and [-30.3] with five ticks
    the step is [0.1] and the first tick [-307 * 0.1], which is less than
    [-30.7]. *)
Lemma niceGridTicks_rounding_counterexample :
  let min := B64.round (-30.7) in
  let max := B64.round (-30.3) in
  0 < max - min
  /\ exists (v : Q) (ticks : list num),
      Rounded.niceGridTicks 10 min max 5 = Some (Fin v :: ticks)
      /\ v < min.
Proof.
  cbn zeta. split; [reflexivity|].
  eexists _, _. split; [vm_compute; reflexivity | now vm_compute].
Qed.

(** C6, amended. [niceGridTicks] returns no tick when [max - min <= 0]
    and when the count is zero or less.  Whatever it returns is a strictly
    ascending sequence of finite numbers: it starts at the first tick
    [ceil(min / niceStep) * niceStep] when that is not above [max], each
    further tick is the rounded sum of the tick before and the step, and
    it stops with the last tick whose successor is above [max].  No tick
    is above [max], and none is below [min] by more than a rounding error,
    [2^-51] of the magnitude of [min] and of the step.  The loop ends
    whenever the step is at least [2^-50] of the magnitudes of [min] and
    [max]. *)
Theorem niceGridTicks_ticks_rounded (min max count : Q) :
  (max - min <= 0 ->
   forall fuel : nat, Rounded.niceGridTicks fuel min max count = Some [])
  /\ (count <= 0 ->
      forall fuel : nat,
        Rounded.niceGridTicks (S fuel) min max count = Some [])
  /\ (forall (fuel : nat) (ticks : list num),
         Rounded.niceGridTicks fuel min max count = Some ticks ->
         exists vs : list Q,
           ticks = map Fin vs
           /\ Sorted Qlt vs
           /\ Forall (fun v => v <= max) vs
           /\ (forall step start : Q,
                  0 < max - min ->
                  Rounded.niceStep min max count = Fin step ->
                  Rounded.tickStart min (Fin step) = Fin start ->
                  start <= max -> head vs = Some start)
           /\ (vs <> [] ->
               exists step : Q,
                 Rounded.niceStep min max count = Fin step /\ 0 < step
                 /\ Forall (fun v =>
                              min - (Qabs min + step) * (1 # 2 ^ 51) <= v)
                           vs
                 /\ (forall (i : nat) (x y : Q),
                        vs !! i = Some x -> vs !! S i = Some y ->
                        y = x ⊕ step)
                 /\ forall x : Q, last vs = Some x -> max < x ⊕ step))
  /\ (forall step : Q,
         Rounded.niceStep min max count = Fin step ->
         Qabs min + Qabs max <= step * 2 ^ 50 ->
         exists (fuel0 : nat) (ticks : list num),
           forall fuel : nat,
             (fuel0 <= fuel)%nat ->
             Rounded.niceGridTicks fuel min max count = Some ticks).
Proof.
  assert (max - min <= 0 ->
          forall fuel : nat,
            Rounded.niceGridTicks fuel min max count = Some []) as Hempty.
  { intros H fuel. unfold Rounded.niceGridTicks.
    now rewrite (round_sub_nonpositive min max H). }
  assert (count <= 0 ->
          forall fuel : nat,
            Rounded.niceGridTicks (S fuel) min max count = Some []) as Hnan.
  { intros Hcount fuel.
    destruct (Qlt_le_dec 0 (max - min)) as [Hrange|Hrange];
      [|now apply Hempty].
    unfold Rounded.niceGridTicks.
    destruct (round_sub_positive min max Hrange) as [-> _].
    now rewrite (rounded_tickStart_nan min max count Hcount Hrange). }
  split; [exact Hempty|]. split; [exact Hnan|]. split.
  - intros fuel ticks Hrun.
    destruct (Qlt_le_dec 0 (max - min)) as [Hrange|Hrange].
    2:{ rewrite (Hempty Hrange) in Hrun. injection Hrun as <-.
        exists []. split; [reflexivity|]. split; [constructor|].
        split; [constructor|]. split; [|congruence].
        intros step start Hpos. lra. }
    destruct (Qlt_le_dec 0 count) as [Hcount|Hcount].
    2:{ assert (ticks = []) as ->.
        { destruct fuel as [|fuel].
          - unfold Rounded.niceGridTicks in Hrun.
            destruct (round_sub_positive min max Hrange) as [E _].
            rewrite E in Hrun. discriminate Hrun.
          - rewrite (Hnan Hcount) in Hrun. now injection Hrun as <-. }
        exists []. split; [reflexivity|]. split; [constructor|].
        split; [constructor|]. split; [|congruence].
        intros step start _ Estep Estart.
        pose proof (rounded_tickStart_nan min max count Hcount Hrange) as E.
        rewrite Estep, Estart in E. discriminate E. }
    destruct (rounded_niceStep_positive min max count Hcount Hrange)
      as (step & Estep & Hstep).
    unfold Rounded.niceGridTicks in Hrun.
    destruct (round_sub_positive min max Hrange) as [E _].
    rewrite E, Estep in Hrun.
    pose proof (rounded_tickStart_finite min step Hstep) as Estart.
    rewrite Estart in Hrun.
    destruct (rounded_start_bounds min step Hstep) as [Hlo _].
    cbn zeta in Hlo.
    set (start := B64.round
                    (inject_Z (Qceiling (B64.round (min / step))) * step))
      in *.
    destruct (rounded_tick_loop_sound max step Hstep fuel start ticks
                (round_is_double _) Hrun)
      as (vs & -> & Hsorted & Hall & _ & Hfirst & Hchain & Hlast).
    exists vs. split; [reflexivity|]. split; [exact Hsorted|].
    split; [|split].
    + eapply Forall_impl; [exact Hall|]. cbn. intros x [_ Hx]. exact Hx.
    + intros step' start' _ Estep' Estart' Hle.
      rewrite Estep in Estep'. injection Estep' as <-.
      rewrite Estart in Estart'. injection Estart' as <-.
      exact (Hfirst Hle).
    + intros _. exists step. split; [exact Estep|]. split; [exact Hstep|].
      split; [|split; [exact Hchain | exact Hlast]].
      eapply Forall_impl; [exact Hall|]. cbn. intros x [Hx _]. lra.
  - intros step Estep Hbig.
    destruct (Qlt_le_dec 0 (max - min)) as [Hrange|Hrange].
    2:{ exists 0%nat, []. intros fuel _. now apply Hempty. }
    destruct (Qlt_le_dec 0 count) as [Hcount|Hcount].
    2:{ exists 1%nat, []. intros [|fuel] Hfuel; [lia|]. now apply Hnan. }
    destruct (rounded_niceStep_positive min max count Hcount Hrange)
      as (step' & Estep' & Hstep).
    rewrite Estep in Estep'. injection Estep' as <-.
    destruct (rounded_start_bounds min step Hstep) as [Hlo _].
    cbn zeta in Hlo.
    set (start := B64.round
                    (inject_Z (Qceiling (B64.round (min / step))) * step))
      in *.
    set (m := Z.to_nat (Qfloor ((max - start) / (step * (1 # 2))) + 1)).
    assert (max < start + inject_Z (Z.of_nat m) * (step * (1 # 2))) as Hm.
    { pose proof (Qlt_floor ((max - start) / (step * (1 # 2)))) as Hf.
      assert (inject_Z (Qfloor ((max - start) / (step * (1 # 2))) + 1)
              <= inject_Z (Z.of_nat m)) as Hz
        by (rewrite <- Zle_Qle; lia).
      assert ((max - start) / (step * (1 # 2)) * (step * (1 # 2))
              == max - start) as Ed by (field; lra).
      set (r := (max - start) / (step * (1 # 2))) in *.
      set (k := inject_Z (Z.of_nat m)) in *.
      set (f := inject_Z (Qfloor r + 1)) in *. nra. }
    destruct (rounded_tick_loop_terminates max step
                (min - (Qabs min + step) * (1 # 2 ^ 51)) Hstep
                (fun v Hv1 Hv2 =>
                   rounded_step_advances min max step v Hstep Hbig Hv1 Hv2)
                m start (S m) Hlo Hm ltac:(lia)) as [ticks Hticks].
    exists (S m), ticks. intros fuel Hfuel.
    unfold Rounded.niceGridTicks.
    destruct (round_sub_positive min max Hrange) as [-> _].
    rewrite Estep, (rounded_tickStart_finite min step Hstep).
    exact (rounded_tick_loop_fuel_mono _ _ _ _ _ Hticks fuel Hfuel).
Qed.

(** The ticks of the domain [[0, 100]] for five ticks, on the code. *)
Example niceGridTicks_rounded_0_100_5 :
  exists (vs : list Q) (step : Q),
    Rounded.niceGridTicks 10 0 100 5 = Some (map Fin vs)
    /\ Forall2 Qeq vs [0; 20; 40; 60; 80; 100]
    /\ Rounded.niceStep 0 100 5 = Fin step
    /\ step == 20
    /\ Qabs 0 + Qabs 100 <= step * 2 ^ 50.
Proof.
  eexists [_; _; _; _; _; _], _.
  split; [vm_compute; reflexivity|].
  split; [repeat constructor; now vm_compute|].
  split; [vm_compute; reflexivity|].
  split; now vm_compute.
Qed.

(** X31. The loop of [niceGridTicks] never ends when the first tick
    absorbs the step: when it is not above [max] and its rounded sum with
    the step is the tick itself, no amount of passes returns. *)
Theorem niceGridTicks_absorbed_step
    (min max count step start : Q) (fuel : nat) :
  0 < max - min ->
  Rounded.niceStep min max count = Fin step ->
  Rounded.tickStart min (Fin step) = Fin start ->
  start <= max -> start ⊕ step == start ->
  Rounded.niceGridTicks fuel min max count = None.
Proof.
  intros Hrange Estep Estart Hle Habs. unfold Rounded.niceGridTicks.
  destruct (round_sub_positive min max Hrange) as [-> _].
  rewrite Estep, Estart. now apply rounded_tick_loop_absorbed.
Qed.

Lemma niceGridTicks_absorbed_step_witness :
  Rounded.niceGridTicks 1000 10000000000000000 10000000000000004 5 = None.
Proof.
  eapply (niceGridTicks_absorbed_step
            10000000000000000 10000000000000004 5 _ _ 1000).
  - reflexivity.
  - vm_compute. reflexivity.
  - vm_compute. reflexivity.
  - now vm_compute.
  - now vm_compute.
Defined.

(** ** The target range: [computeTargetRange] *)





(** On the code the padding of a constant series at [1e18] is absorbed:
    the range is the single point. *)
Example computeTargetRange_rounded_absorbed :
  exists lo hi : Q,
    Rounded.computeTargetRange [mkPoint 0 1000000000000000000]
                               1000000000000000000 false
    = TargetRange.mk (Fin lo) (Fin hi)
    /\ lo == 1000000000000000000 /\ hi == 1000000000000000000.
Proof.
  eexists _, _. split; [vm_compute; reflexivity | now vm_compute].
Qed.

(** ** The crosshair *)

(** X9. The crosshair never reads [null]: for every stream, frame,
    window and cursor time the interpolation over the crosshair series
    gives a value. *)
Theorem hover_value_defined
    (data : list LiveLinePoint) (frame : AnimFrame) (windowMs t : Q) :
  exists v : Q,
    interpolateAtTime (hoverSeries data frame windowMs) t = Some v.
Proof.
  apply interpolateAtTime_some, hoverSeries_nonempty.
Qed.
